(** * The dance sequencer of create3_examples_py

    A shallow embedding of
    [create3_examples_py/dance/dance_choreograph.py]: the script actions
    ([Move], [Lights], [FinishedDance]), the [DanceChoreographer] with its
    cursor, and the periodic [timer_callback] of [DanceCommandPublisher]
    that latches and republishes the last commands.

    Conventions of the embedding.
    - An [rclpy] time is its integer number of nanoseconds, a [Z].
    - A Python float is a rational, a [Q]: [nanoseconds / float(1e9)] is the
      exact quotient.  Rounding of the division is not modelled.
    - A method that mutates [self] takes the object and returns the new one.
    - A Python exception is a value of [exn]; code that can raise returns a
      [result]. *)

From Stdlib Require Import List ZArith QArith Qminmax Bool Arith Lia.
Import ListNotations.

Local Open Scope Z_scope.

(** ** Python exceptions *)

Inductive exn : Type :=
| AttributeError   (* reading an attribute that was never assigned *)
| IndexError       (* indexing a list out of range *)
| AssertionError.  (* a message field refuses the value assigned to it *)

Inductive result (A : Type) : Type :=
| Ok (a : A)
| Raise (e : exn).

Arguments Ok {A} a.
Arguments Raise {A} e.

(** ** Messages

    The fields of the ROS messages the source reads or writes.  A freshly
    constructed message has every number at zero; [LightringLeds()] has six
    dark leds, and its field [leds] is an array of six [LedColor]: it
    refuses a list of any other length when it is assigned. *)

Record LedColor : Type := mkLedColor { red : Z; green : Z; blue : Z }.

Record Vector3 : Type := mkVector3 { x : Q; y : Q; z : Q }.

Record Twist : Type := mkTwist { linear : Vector3; angular : Vector3 }.

Record LightringLeds : Type := mkLightringLeds {
  stamp : Z;                  (* header.stamp *)
  leds : list LedColor;
  override_system : bool
}.

Definition Vector3_new : Vector3 := mkVector3 0 0 0.

Definition Twist_new : Twist := mkTwist Vector3_new Vector3_new.

Definition LedColor_new : LedColor := mkLedColor 0 0 0.

Definition LightringLeds_new : LightringLeds :=
  mkLightringLeds 0 (repeat LedColor_new 6) false.

Definition set_linear_x (t : Twist) (v : Q) : Twist :=
  mkTwist (mkVector3 v (y (linear t)) (z (linear t))) (angular t).

Definition set_angular_z (t : Twist) (v : Q) : Twist :=
  mkTwist (linear t) (mkVector3 (x (angular t)) (y (angular t)) v).

Definition set_override_system (l : LightringLeds) (b : bool) : LightringLeds :=
  mkLightringLeds (stamp l) (leds l) b.

(** [lightring.leds = c]: accepted for six colours, refused otherwise. *)
Definition set_leds (l : LightringLeds) (c : list LedColor)
  : result LightringLeds :=
  if (length c =? 6)%nat
  then Ok (mkLightringLeds (stamp l) c (override_system l))
  else Raise AssertionError.

Definition set_stamp (l : LightringLeds) (t : Z) : LightringLeds :=
  mkLightringLeds t (leds l) (override_system l).

(** ** ColorPalette *)

Module ColorPalette.
Definition red : LedColor := mkLedColor 255 0 0.
Definition green : LedColor := mkLedColor 0 255 0.
Definition blue : LedColor := mkLedColor 0 0 255.
Definition yellow : LedColor := mkLedColor 255 255 0.
Definition pink : LedColor := mkLedColor 255 0 255.
Definition cyan : LedColor := mkLedColor 0 255 255.
Definition purple : LedColor := mkLedColor 127 0 255.
Definition white : LedColor := mkLedColor 255 255 255.
Definition grey : LedColor := mkLedColor 189 189 189.
End ColorPalette.

(** ** Actions

    The three classes [Move], [Lights] and [FinishedDance].  [Move] stores
    [theta] in radians; [Lights] stores the list it was given. *)

Inductive Action : Type :=
| Move (x_m_s : Q) (theta : Q)
| Lights (led_colors : list LedColor)
| FinishedDance.

(** [Move.__init__]; [radians] stands for [math.radians]. *)
Definition Move_init (radians : Q -> Q) (x_m_s theta_degrees_second : Q)
  : result Action :=
  Ok (Move x_m_s (radians theta_degrees_second)).

(** [Lights.__init__]: one assignment, no check of the length. *)
Definition Lights_init (led_colors : list LedColor) : result Action :=
  Ok (Lights led_colors).

(** ** DanceChoreographer *)

Definition Script : Type := list (Q * Action).

Record DanceChoreographer : Type := mkDanceChoreographer {
  dance_sequence : Script;
  action_index : nat;
  start_time : option Z       (* [None]: the attribute is not assigned yet *)
}.

(** [DanceChoreographer.__init__]: two assignments, no check of the
    offsets. *)
Definition DanceChoreographer_init (seq : Script) : result DanceChoreographer :=
  Ok (mkDanceChoreographer seq 0 None).

Definition start_dance (d : DanceChoreographer) (time : Z)
  : DanceChoreographer :=
  mkDanceChoreographer (dance_sequence d) 0 (Some time).

(** [nanoseconds / float(1e9)] *)
Definition seconds (nanoseconds : Z) : Q := nanoseconds # 1000000000.

(** The [while] loop of [get_next_actions].  Each iteration moves the index
    one step towards [len(dance_sequence)], so [length seq - idx] iterations
    are enough; [fuel] counts them. *)
Fixpoint while_due (fuel : nat) (seq : Script) (time_into_dance_seconds : Q)
    (idx : nat) (actions : list Action) : nat * list Action :=
  match fuel with
  | O => (idx, actions)
  | S fuel' =>
      match nth_error seq idx with
      | Some (offset, action) =>
          if Qle_bool offset time_into_dance_seconds
          then while_due fuel' seq time_into_dance_seconds (S idx)
                 (actions ++ [action])
          else (idx, actions)
      | None => (idx, actions)
      end
  end.

Definition get_next_actions (d : DanceChoreographer) (time : Z)
  : result (list Action * DanceChoreographer) :=
  match start_time d with
  | None => Raise AttributeError
  | Some st =>
      let time_into_dance_seconds := seconds (time - st) in
      let '(idx, actions) :=
        while_due (length (dance_sequence d) - action_index d)
          (dance_sequence d) time_into_dance_seconds (action_index d) [] in
      Ok (actions, mkDanceChoreographer (dance_sequence d) idx (start_time d))
  end.

(** ** DanceCommandPublisher *)

Record DanceCommandPublisher : Type := mkDanceCommandPublisher {
  dance_choreographer : DanceChoreographer;
  last_twist : Twist;
  last_lightring : LightringLeds;
  ready : bool;
  last_wait_subscriber_printout : option Z
}.

(** What a tick does to the outside: the lines it logs and the messages it
    publishes, in program order. *)
Inductive event : Type :=
| LogStart (time : Q)                        (* 'Subscribers connected, ...' *)
| LogWaiting                                 (* 'Waiting for publishers ...' *)
| LogMove (time : Q) (lin ang : Q)           (* '... New move action ...' *)
| LogLights (time : Q) (r g b : Z)           (* '... New lights action ...' *)
| LogFinished (time : Q)                     (* '... Finished Dance Sequence' *)
| PublishVel (msg : Twist)                   (* vel_publisher.publish *)
| PublishLights (msg : LightringLeds).       (* lights_publisher.publish *)

Definition DanceCommandPublisher_init (d : DanceChoreographer)
  : DanceCommandPublisher :=
  mkDanceCommandPublisher d Twist_new
    (set_override_system LightringLeds_new false) false None.

Definition set_dance_choreographer (s : DanceCommandPublisher)
    (d : DanceChoreographer) : DanceCommandPublisher :=
  mkDanceCommandPublisher d (last_twist s) (last_lightring s) (ready s)
    (last_wait_subscriber_printout s).

Definition set_last_twist (s : DanceCommandPublisher) (t : Twist)
  : DanceCommandPublisher :=
  mkDanceCommandPublisher (dance_choreographer s) t (last_lightring s)
    (ready s) (last_wait_subscriber_printout s).

Definition set_last_lightring (s : DanceCommandPublisher) (l : LightringLeds)
  : DanceCommandPublisher :=
  mkDanceCommandPublisher (dance_choreographer s) (last_twist s) l
    (ready s) (last_wait_subscriber_printout s).

Definition set_ready (s : DanceCommandPublisher) (b : bool)
  : DanceCommandPublisher :=
  mkDanceCommandPublisher (dance_choreographer s) (last_twist s)
    (last_lightring s) b (last_wait_subscriber_printout s).

Definition set_last_wait_subscriber_printout (s : DanceCommandPublisher)
    (t : option Z) : DanceCommandPublisher :=
  mkDanceCommandPublisher (dance_choreographer s) (last_twist s)
    (last_lightring s) (ready s) t.

(** The variables live in the [for] loop of [timer_callback]: the node and
    the locals [twist] and [lightring], with the lines logged so far. *)
Record frame : Type := mkFrame {
  node : DanceCommandPublisher;
  twist : Twist;
  lightring : LightringLeds;
  log : list event
}.

(** One iteration of [for next_action in next_actions].  In the [Lights]
    branch the assignment to [lightring.leds] comes before the assignment
    to [self.last_lightring]: when the list is refused the latch keeps the
    previous message, and only the local [lightring] is the new one.  The
    log line then reads [lightring.leds[0]]. *)
Definition for_body (current_time : Z) (f : frame) (next_action : Action)
  : frame * option exn :=
  match next_action with
  | Move ax atheta =>
      let tw := set_angular_z (set_linear_x Twist_new ax) atheta in
      (mkFrame (set_last_twist (node f) tw) tw (lightring f)
         (log f ++ [LogMove (seconds current_time) (x (linear tw))
                      (z (angular tw))]),
       None)
  | Lights led_colors =>
      let lr0 := set_override_system LightringLeds_new true in
      match set_leds lr0 led_colors with
      | Raise e => (mkFrame (node f) (twist f) lr0 (log f), Some e)
      | Ok lr =>
          let n := set_last_lightring (node f) lr in
          match leds lr with
          | [] => (mkFrame n (twist f) lr (log f), Some IndexError)
          | c :: _ =>
              (mkFrame n (twist f) lr
                 (log f ++ [LogLights (seconds current_time) (red c)
                              (green c) (blue c)]),
               None)
          end
      end
  | FinishedDance =>
      let tw := set_angular_z (set_linear_x Twist_new 0) 0 in
      let lr := set_override_system LightringLeds_new false in
      (mkFrame (set_last_lightring (set_last_twist (node f) tw) lr) tw lr
         (log f ++ [LogFinished (seconds current_time)]),
       None)
  end.

Fixpoint for_actions (current_time : Z) (next_actions : list Action)
    (f : frame) : frame * option exn :=
  match next_actions with
  | [] => (f, None)
  | a :: rest =>
      match for_body current_time f a with
      | (f', None) => for_actions current_time rest f'
      | (f', Some e) => (f', Some e)
      end
  end.

(** Lines 139-167 of [timer_callback], reached when the node is ready.
    [lightring] is the object [self.last_lightring] refers to (both are
    assigned together everywhere), so stamping it changes the node too. *)
Definition publish_commands (s : DanceCommandPublisher) (current_time : Z)
    (logged : list event) : DanceCommandPublisher * list event * option exn :=
  match get_next_actions (dance_choreographer s) current_time with
  | Raise e => (s, logged, Some e)
  | Ok (next_actions, d') =>
      let s1 := set_dance_choreographer s d' in
      match for_actions current_time next_actions
              (mkFrame s1 (last_twist s1) (last_lightring s1) logged) with
      | (f, Some e) => (node f, log f, Some e)
      | (f, None) =>
          let lr := set_stamp (lightring f) current_time in
          (set_last_lightring (node f) lr,
           log f ++ [PublishVel (twist f); PublishLights lr],
           None)
      end
  end.

(** [not self.last_wait_subscriber_printout or (...) > 5.0] *)
Definition wait_printout_due (s : DanceCommandPublisher) (current_time : Z)
  : bool :=
  match last_wait_subscriber_printout s with
  | None => true
  | Some last => negb (Qle_bool (seconds (current_time - last)) 5)
  end.

(** [get_subscription_count() > 0 and get_subscription_count() >= 0] *)
Definition subscribers_connected (vel_count lights_count : nat) : bool :=
  (0 <? vel_count)%nat && (0 <=? lights_count)%nat.

(** What a tick reads from its environment. *)
Record tick_input : Type := mkTick {
  current_time : Z;
  vel_subscription_count : nat;
  lights_subscription_count : nat
}.

Definition timer_callback (s : DanceCommandPublisher) (i : tick_input)
  : DanceCommandPublisher * list event * option exn :=
  if ready s then publish_commands s (current_time i) []
  else if subscribers_connected (vel_subscription_count i)
            (lights_subscription_count i)
  then
    let s1 := set_dance_choreographer (set_ready s true)
                (start_dance (dance_choreographer s) (current_time i)) in
    publish_commands s1 (current_time i) [LogStart (seconds (current_time i))]
  else if wait_printout_due s (current_time i)
  then (set_last_wait_subscriber_printout s (Some (current_time i)),
        [LogWaiting], None)
  else (s, [], None).

(** The timer fires once per tick; an exception that leaves the callback
    ends the run. *)
Fixpoint spin (s : DanceCommandPublisher) (ticks : list tick_input)
  : list (list event) * DanceCommandPublisher * option exn :=
  match ticks with
  | [] => ([], s, None)
  | i :: rest =>
      match timer_callback s i with
      | (s', evs, Some e) => ([evs], s', Some e)
      | (s', evs, None) =>
          let '(trace, s'', e) := spin s' rest in (evs :: trace, s'', e)
      end
  end.

(** Successive calls of [get_next_actions], one per time. *)
Fixpoint advance_all (d : DanceChoreographer) (times : list Z)
  : result (list (list Action) * DanceChoreographer) :=
  match times with
  | [] => Ok ([], d)
  | t :: rest =>
      match get_next_actions d t with
      | Raise e => Raise e
      | Ok (actions, d') =>
          match advance_all d' rest with
          | Raise e => Raise e
          | Ok (outs, d'') => Ok (actions :: outs, d'')
          end
      end
  end.

(** ** The example of the dance: a script and its run *)

Definition example_script : Script :=
  [ (0, Move (2 # 10) 0);
    (1, Lights (repeat ColorPalette.red 6));
    (2, FinishedDance) ]%Q.

Definition example_node : DanceCommandPublisher :=
  DanceCommandPublisher_init (mkDanceChoreographer example_script 0 None).

Definition at_s (s : Z) : tick_input := mkTick (s * 1000000000) 1 0.

(** ** Notions used to state the properties *)

(** The actions at the head of [rest] whose offsets have elapsed: what the
    [while] loop collects when it starts at the head of [rest]. *)
Fixpoint due_prefix (elapsed : Q) (rest : Script) : list Action :=
  match rest with
  | [] => []
  | (offset, action) :: rest' =>
      if Qle_bool offset elapsed then action :: due_prefix elapsed rest'
      else []
  end.

(** A script as the data model describes it: offsets never decrease. *)
Fixpoint non_decreasing (script : Script) : bool :=
  match script with
  | [] => true
  | (offset, _) :: rest =>
      match rest with
      | [] => true
      | (offset', _) :: _ => Qle_bool offset offset' && non_decreasing rest
      end
  end.

(** A script as the data model describes it: no offset is negative. *)
Definition non_negative (script : Script) : bool :=
  forallb (fun p => Qle_bool 0 (fst p)) script.

(** The entries of [script] due at [elapsed], and those at offset zero. *)
Definition due_at (elapsed : Q) (script : Script) : Script :=
  filter (fun p => Qle_bool (fst p) elapsed) script.

Definition at_zero (script : Script) : Script :=
  filter (fun p => Qeq_bool (fst p) 0) script.

(** The first [n] query times of a sequence. *)
Definition first_calls (times : nat -> Z) (n : nat) : list Z :=
  map times (List.seq 0 n).

(** A fresh choreographer, as [DanceChoreographer(script)] builds it. *)
Definition fresh (script : Script) : DanceChoreographer :=
  mkDanceChoreographer script 0 None.

(** Call number [n] (counting from 0) of a performance started at [t0] and
    queried at [times 0], [times 1], ... returns the script entry at index
    [i]: the call moves the cursor from at most [i] to beyond [i], and the
    action of that entry is in the returned list, at the place the cursor
    gives it. *)
Definition returned_by (script : Script) (t0 : Z) (times : nat -> Z)
    (n i : nat) : Prop :=
  exists outs d actions d',
    advance_all (start_dance (fresh script) t0) (first_calls times n)
      = Ok (outs, d) /\
    get_next_actions d (times n) = Ok (actions, d') /\
    (action_index d <= i < action_index d')%nat /\
    nth_error actions (i - action_index d)
    = option_map snd (nth_error script i).

Definition is_publish (e : event) : bool :=
  match e with
  | PublishVel _ | PublishLights _ => true
  | _ => false
  end.

Definition is_log (e : event) : bool := negb (is_publish e).

(** The index the loop stops at. *)
Definition next_index (script : Script) (e : Q) (c : nat) : nat :=
  (c + length (due_prefix e (skipn c script)))%nat.

(** Cursor and outputs of successive calls of a performance of [script]
    started at [t0], as pure functions. *)
Fixpoint cursor_after (script : Script) (t0 : Z) (c : nat) (ts : list Z)
  : nat :=
  match ts with
  | [] => c
  | t :: rest =>
      cursor_after script t0 (next_index script (seconds (t - t0)) c) rest
  end.

Fixpoint outputs (script : Script) (t0 : Z) (c : nat) (ts : list Z)
  : list (list Action) :=
  match ts with
  | [] => []
  | t :: rest =>
      due_prefix (seconds (t - t0)) (skipn c script)
      :: outputs script t0 (next_index script (seconds (t - t0)) c) rest
  end.

(** The cursor before call number [n]. *)
Definition cursor (script : Script) (t0 : Z) (times : nat -> Z) (n : nat)
  : nat :=
  cursor_after script t0 0 (first_calls times n).

(** Query times one second apart, from time zero. *)
Definition every_second (n : nat) : Z := Z.of_nat n * 1000000000.

(** The two operations of the sequencer, as its caller issues them. *)
Inductive call : Type :=
| CallStart (time : Z)          (* start_dance(time) *)
| CallAdvance (time : Z).       (* get_next_actions(time) *)

(** The object after a call.  [get_next_actions] raises before it assigns
    anything, so a call that raises leaves the object as it was. *)
Definition apply_call (d : DanceChoreographer) (c : call)
  : DanceChoreographer :=
  match c with
  | CallStart t => start_dance d t
  | CallAdvance t =>
      match get_next_actions d t with
      | Ok (_, d') => d'
      | Raise _ => d
      end
  end.

Definition apply_calls (d : DanceChoreographer) (cs : list call)
  : DanceChoreographer :=
  fold_left apply_call cs d.

(** Lines logged by the [for] loop. *)
Definition is_action_log (e : event) : bool :=
  match e with
  | LogMove _ _ _ | LogLights _ _ _ _ | LogFinished _ => true
  | _ => false
  end.

(** An action the loop can carry out: a [Lights] has six colours, as the
    light-ring message requires. *)
Definition six_colours (a : Action) : bool :=
  match a with
  | Lights led_colors => (length led_colors =? 6)%nat
  | _ => true
  end.

(** Every [Lights] of the script has six colours. *)
Definition six_leds (script : Script) : bool :=
  forallb (fun p => six_colours (snd p)) script.

(** The call at [t] returns nothing (and so changes nothing). *)
Definition idle_at (d : DanceChoreographer) (t : Z) : Prop :=
  get_next_actions d t = Ok ([], d).

(** An explicit restart of the performance of a running node. *)
Definition restart (s : DanceCommandPublisher) (t : Z)
  : DanceCommandPublisher :=
  set_dance_choreographer s (start_dance (dance_choreographer s) t).

(** The locals of the loop are the node's latches. *)
Definition aliased (f : frame) : Prop :=
  twist f = last_twist (node f) /\ lightring f = last_lightring (node f).

(** What the loop leaves alone, and how the log grows. *)
Definition extends (f f' : frame) : Prop :=
  ready (node f') = ready (node f) /\
  last_wait_subscriber_printout (node f')
    = last_wait_subscriber_printout (node f) /\
  dance_choreographer (node f') = dance_choreographer (node f) /\
  exists added, log f' = log f ++ added /\
                forallb is_action_log added = true.

(** The node of the example after the tick on which subscribers connect,
    and the events of that tick. *)
Definition example_started : DanceCommandPublisher :=
  fst (fst (timer_callback example_node (at_s 10))).

Definition example_started_events : list event :=
  snd (fst (timer_callback example_node (at_s 10))).

Definition half_past (s : Z) : tick_input :=
  mkTick (s * 1000000000 + 500000000) 1 0.

(** The light command of an idle robot, stamped at [t]. *)
Definition neutral_lightring (t : Z) : LightringLeds :=
  mkLightringLeds t (repeat LedColor_new 6) false.

(** A script whose first action is due one second into the dance, and its
    node after the move has fired. *)
Definition late_script : Script :=
  [ (1, Move (3 # 10) (1 # 2)); (4, FinishedDance) ]%Q.

Definition example_moving : DanceCommandPublisher :=
  snd (fst (spin (DanceCommandPublisher_init (fresh late_script))
              [at_s 10; at_s 11])).

(** Ticks of a node that waits for a subscriber, at the given seconds. *)
Definition waiting_at (s : Z) : tick_input := mkTick (s * 1000000000) 0 0.

(** A script with a one-colour [Lights], a negative offset and offsets that
    decrease. *)
Definition malformed_script : Script :=
  [ (2, Lights [ColorPalette.red]); (-1, Move 1 0); (0, FinishedDance) ]%Q.

(** The node of the example after the ticks at 10 s and 12 s. *)
Definition example_finished : DanceCommandPublisher :=
  snd (fst (spin example_node [at_s 10; at_s 12])).

(** ** Notions used for further properties of the code *)

Definition is_start_call (c : call) : bool :=
  match c with
  | CallStart _ => true
  | CallAdvance _ => false
  end.

(** Some call of the list is a [start_dance]. *)
Definition has_start (cs : list call) : bool := existsb is_start_call cs.

(** The line the [for] loop logs for an action it carries out (a [Lights]
    with six colours; the case of no colour is there to be total). *)
Definition log_lines (current_time : Z) (a : Action) : list event :=
  match a with
  | Move ax atheta => [LogMove (seconds current_time) ax atheta]
  | Lights [] => []
  | Lights (c :: _) =>
      [LogLights (seconds current_time) (red c) (green c) (blue c)]
  | FinishedDance => [LogFinished (seconds current_time)]
  end.

(** The actions that assign [self.last_twist], and those that assign
    [self.last_lightring]. *)
Definition writes_twist (a : Action) : bool :=
  match a with
  | Move _ _ | FinishedDance => true
  | Lights _ => false
  end.

Definition writes_lightring (a : Action) : bool :=
  match a with
  | Lights _ | FinishedDance => true
  | Move _ _ => false
  end.

(** The velocity command a [Move] builds. *)
Definition move_twist (ax atheta : Q) : Twist :=
  mkTwist (mkVector3 ax 0 0) (mkVector3 0 0 atheta).

Definition is_start_line (e : event) : bool :=
  match e with
  | LogStart _ => true
  | _ => false
  end.

(** A node that runs [script] and whose latches satisfy [PT] and [PL]; a
    ready node has been started. *)
Definition latch_invariant (script : Script) (PT : Twist -> Prop)
    (PL : LightringLeds -> Prop) (s : DanceCommandPublisher) : Prop :=
  dance_sequence (dance_choreographer s) = script /\
  (ready s = true -> start_time (dance_choreographer s) <> None) /\
  PT (last_twist s) /\ PL (last_lightring s).

(** Only forward speed and yaw rate are commanded. *)
Definition planar (t : Twist) : Prop :=
  y (linear t) = 0%Q /\ z (linear t) = 0%Q /\
  x (angular t) = 0%Q /\ y (angular t) = 0%Q.

(** The same tick with another count of light-ring subscribers. *)
Definition with_lights_count (n : nat) (i : tick_input) : tick_input :=
  mkTick (current_time i) (vel_subscription_count i) n.

(** The waiting line is due: never printed, or printed more than five
    seconds (in nanoseconds) before [now]. *)
Definition waiting_line_due (last : option Z) (now : Z) : bool :=
  match last with
  | None => true
  | Some l => l + 5000000000 <? now
  end.

(** The latch an action assigns: the velocity command, and the light
    command before it is stamped. *)
Definition twist_of (a : Action) : option Twist :=
  match a with
  | Move ax atheta => Some (move_twist ax atheta)
  | FinishedDance => Some Twist_new
  | Lights _ => None
  end.

Definition lightring_of (a : Action) : option LightringLeds :=
  match a with
  | Lights led_colors => Some (mkLightringLeds 0 led_colors true)
  | FinishedDance => Some (mkLightringLeds 0 (repeat LedColor_new 6) false)
  | Move _ _ => None
  end.

(** A script with four actions due at once, and a ready node started on it
    at time zero. *)
Definition busy_script : Script :=
  [ (0, Move 1 0);
    (0, Lights (repeat ColorPalette.red 6));
    (0, Move (1 # 2) (1 # 4));
    (0, Lights (repeat ColorPalette.green 6)) ]%Q.

Definition busy_node : DanceCommandPublisher :=
  mkDanceCommandPublisher (mkDanceChoreographer busy_script 0 (Some 0))
    Twist_new (set_override_system LightringLeds_new false) true None.



(** The events of the two ticks that lead to [example_moving], and those
    of the second one. *)
Definition late_trace : list (list event) :=
  fst (fst (spin (DanceCommandPublisher_init (fresh late_script))
              [at_s 10; at_s 11])).

Definition late_second_tick : list event := nth 1 late_trace [].

(** The readiness gate, lines 127-138: the node and the lines logged when
    the tick goes on to line 139 (the node was ready, or a subscriber is
    there and the dance is started now), or [None] when the tick returns at
    the gate. *)
Definition after_gate (s : DanceCommandPublisher) (i : tick_input)
  : option (DanceCommandPublisher * list event) :=
  if ready s then Some (s, [])
  else if subscribers_connected (vel_subscription_count i)
            (lights_subscription_count i)
  then Some (set_dance_choreographer (set_ready s true)
               (start_dance (dance_choreographer s) (current_time i)),
             [LogStart (seconds (current_time i))])
  else None.



(** ** The sequencer *)

Section Sequencer.

Lemma skipn_nth_error {A} (l : list A) (n : nat) :
  skipn n l = match nth_error l n with
              | Some a => a :: skipn (S n) l
              | None => []
              end.
Proof.
  revert l; induction n as [|n IH]; intros [|a l]; simpl; auto.
Qed.

Lemma while_due_spec fuel : forall script e idx acc,
  (length script - idx <= fuel)%nat ->
  while_due fuel script e idx acc
  = ((idx + length (due_prefix e (skipn idx script)))%nat,
     acc ++ due_prefix e (skipn idx script)).
Proof.
  induction fuel as [|fuel IH]; intros script e idx acc Hfuel; simpl.
  - rewrite skipn_all2 by lia. simpl. now rewrite Nat.add_0_r, app_nil_r.
  - rewrite (skipn_nth_error script idx).
    destruct (nth_error script idx) as [[off a]|] eqn:Hnth; simpl.
    + destruct (Qle_bool off e); simpl.
      * rewrite IH by lia. rewrite <- app_assoc. simpl.
        f_equal. lia.
      * now rewrite Nat.add_0_r, app_nil_r.
    + now rewrite Nat.add_0_r, app_nil_r.
Qed.

Lemma get_next_actions_started d st t :
  start_time d = Some st ->
  get_next_actions d t
  = Ok (due_prefix (seconds (t - st))
          (skipn (action_index d) (dance_sequence d)),
        mkDanceChoreographer (dance_sequence d)
          (next_index (dance_sequence d) (seconds (t - st)) (action_index d))
          (Some st)).
Proof.
  intros Hst. unfold get_next_actions. rewrite Hst.
  rewrite while_due_spec by lia. reflexivity.
Qed.

Lemma due_prefix_length e l : (length (due_prefix e l) <= length l)%nat.
Proof.
  induction l as [|[off a] l IH]; simpl; auto.
  destruct (Qle_bool off e); simpl; lia.
Qed.

Lemma due_prefix_firstn e l :
  due_prefix e l = map snd (firstn (length (due_prefix e l)) l).
Proof.
  induction l as [|[off a] l IH]; simpl; auto.
  destruct (Qle_bool off e); simpl; congruence.
Qed.

Lemma due_prefix_rest e l :
  due_prefix e (skipn (length (due_prefix e l)) l) = [].
Proof.
  induction l as [|[off a] l IH]; simpl; auto.
  destruct (Qle_bool off e) eqn:H; simpl; auto. now rewrite H.
Qed.

Lemma due_prefix_nil_le e e' l :
  (e' <= e)%Q -> due_prefix e l = [] -> due_prefix e' l = [].
Proof.
  intros Hle. destruct l as [|[off a] l]; simpl; auto.
  destruct (Qle_bool off e) eqn:H; [discriminate|]. intros _.
  destruct (Qle_bool off e') eqn:H'; auto.
  apply Qle_bool_iff in H'.
  assert (Qle_bool off e = true)
    by (apply Qle_bool_iff; eapply Qle_trans; eauto).
  congruence.
Qed.

Lemma due_prefix_all e l :
  Forall (fun p => (fst p <= e)%Q) l -> due_prefix e l = map snd l.
Proof.
  induction 1 as [|[off a] l H _ IH]; simpl; auto.
  apply Qle_bool_iff in H. simpl in H. rewrite H. now rewrite IH.
Qed.

Lemma skipn_In {A} (l : list A) (n : nat) (a : A) :
  In a (skipn n l) -> In a l.
Proof.
  intros H. rewrite <- (firstn_skipn n l). apply in_or_app. now right.
Qed.

Lemma skipn_add {A} (l : list A) (a b : nat) :
  skipn (a + b) l = skipn b (skipn a l).
Proof. now rewrite skipn_skipn, Nat.add_comm. Qed.

Lemma next_index_le script e c : (c <= next_index script e c)%nat.
Proof. unfold next_index; lia. Qed.

Lemma next_index_bound script e c :
  (c <= length script)%nat -> (next_index script e c <= length script)%nat.
Proof.
  intros H. unfold next_index.
  pose proof (due_prefix_length e (skipn c script)) as Hl.
  rewrite length_skipn in Hl. lia.
Qed.

Lemma next_index_blocked script e c :
  due_prefix e (skipn (next_index script e c) script) = [].
Proof. unfold next_index. rewrite skipn_add. apply due_prefix_rest. Qed.

Lemma next_index_fixed script e c :
  due_prefix e (skipn c script) = [] -> next_index script e c = c.
Proof. unfold next_index. intros ->. simpl. lia. Qed.

Lemma seconds_le a b : a <= b -> (seconds a <= seconds b)%Q.
Proof. intros H. unfold seconds, Qle; simpl. lia. Qed.

Lemma seconds_0 : (seconds 0 == 0)%Q.
Proof. unfold seconds, Qeq; reflexivity. Qed.

End Sequencer.

(** ** Runs of the sequencer *)

Section Runs.

Variable script : Script.
Variable t0 : Z.

Lemma advance_all_started ts : forall c,
  advance_all (mkDanceChoreographer script c (Some t0)) ts
  = Ok (outputs script t0 c ts,
        mkDanceChoreographer script (cursor_after script t0 c ts) (Some t0)).
Proof.
  induction ts as [|t ts IH]; intros c; simpl; auto.
  rewrite (get_next_actions_started _ t0) by reflexivity. simpl.
  now rewrite IH.
Qed.

Lemma cursor_after_app ts ts' : forall c,
  cursor_after script t0 c (ts ++ ts')
  = cursor_after script t0 (cursor_after script t0 c ts) ts'.
Proof. induction ts as [|t ts IH]; intros c; simpl; auto. Qed.

Lemma cursor_after_le ts : forall c, (c <= cursor_after script t0 c ts)%nat.
Proof.
  induction ts as [|t ts IH]; intros c; simpl; auto.
  etransitivity; [apply next_index_le | apply IH].
Qed.

Lemma cursor_after_bound ts : forall c,
  (c <= length script)%nat ->
  (cursor_after script t0 c ts <= length script)%nat.
Proof.
  induction ts as [|t ts IH]; intros c H; simpl; auto.
  apply IH, next_index_bound, H.
Qed.

(** After a call at [t'], the entry under the cursor (if any) is not due
    at [t'], whatever calls follow. *)
Lemma cursor_after_blocked ts : forall c e,
  due_prefix e (skipn c script) = [] ->
  due_prefix e (skipn (cursor_after script t0 c ts) script) = [].
Proof.
  induction ts as [|t ts IH]; intros c e Hb; simpl; auto.
  apply IH.
  destruct (Qlt_le_dec e (seconds (t - t0))) as [Hlt|Hle].
  - eapply due_prefix_nil_le; [apply Qlt_le_weak, Hlt |].
    apply next_index_blocked.
  - rewrite next_index_fixed; auto.
    eapply due_prefix_nil_le; eauto.
Qed.

Lemma cursor_after_observed ts : forall c t',
  In t' ts ->
  due_prefix (seconds (t' - t0)) (skipn (cursor_after script t0 c ts) script)
  = [].
Proof.
  induction ts as [|t ts IH]; intros c t' Hin; simpl; [destruct Hin|].
  destruct Hin as [->|Hin].
  - apply cursor_after_blocked, next_index_blocked.
  - now apply IH.
Qed.

Variable times : nat -> Z.

Lemma first_calls_S n :
  first_calls times (S n) = first_calls times n ++ [times n].
Proof. unfold first_calls. now rewrite seq_S, map_app. Qed.

Lemma cursor_S n :
  cursor script t0 times (S n)
  = next_index script (seconds (times n - t0)) (cursor script t0 times n).
Proof. unfold cursor. now rewrite first_calls_S, cursor_after_app. Qed.

Lemma cursor_mono n m :
  (n <= m)%nat -> (cursor script t0 times n <= cursor script t0 times m)%nat.
Proof.
  induction 1 as [|m _ IH]; auto.
  rewrite cursor_S. etransitivity; [apply IH | apply next_index_le].
Qed.

Lemma cursor_bound n : (cursor script t0 times n <= length script)%nat.
Proof. apply cursor_after_bound. lia. Qed.

Lemma returned_by_cursor n i :
  returned_by script t0 times n i
  <-> (cursor script t0 times n <= i < cursor script t0 times (S n))%nat.
Proof.
  unfold returned_by, start_dance, fresh. simpl.
  rewrite advance_all_started. fold (cursor script t0 times n). split.
  - intros (outs & d & actions & d' & H1 & H2 & H3 & _).
    injection H1 as _ <-.
    rewrite (get_next_actions_started _ t0) in H2 by reflexivity.
    injection H2 as _ <-. simpl in H3. now rewrite cursor_S.
  - intros H. eexists _, _, _, _. split; [reflexivity|]. split.
    + apply (get_next_actions_started _ t0). reflexivity.
    + simpl. rewrite <- cursor_S. split; [exact H|].
      rewrite cursor_S in H. unfold next_index in H.
      rewrite due_prefix_firstn, nth_error_map, nth_error_firstn.
      replace (i - cursor script t0 times n <? _)%nat with true
        by (symmetry; apply Nat.ltb_lt; lia).
      rewrite nth_error_skipn. do 2 f_equal. lia.
Qed.

(** Some call crosses every index below a cursor that is reached. *)
Lemma crossing i : forall n,
  (i < cursor script t0 times n)%nat ->
  exists m,
    (cursor script t0 times m <= i < cursor script t0 times (S m))%nat.
Proof.
  induction n as [|n IH]; intros H.
  - unfold cursor in H. simpl in H. lia.
  - destruct (Nat.lt_ge_cases i (cursor script t0 times n)) as [Hlt|Hge]; eauto.
Qed.

Lemma crossing_unique i n m :
  (cursor script t0 times n <= i < cursor script t0 times (S n))%nat ->
  (cursor script t0 times m <= i < cursor script t0 times (S m))%nat -> n = m.
Proof.
  intros Hn Hm.
  destruct (Nat.lt_trichotomy n m) as [H|[H|H]]; auto.
  - pose proof (cursor_mono (S n) m H). lia.
  - pose proof (cursor_mono (S m) n H). lia.
Qed.

End Runs.

(** Far enough into the dance every offset has elapsed. *)
Lemma all_due_eventually (script : Script) :
  exists D, forall d, D <= d -> Forall (fun p => (fst p <= seconds d)%Q) script.
Proof.
  induction script as [|[[a b] act] script [D IH]].
  - exists 0. constructor.
  - exists (Z.max D (Z.max 0 a * 1000000000)). intros d Hd. constructor.
    + unfold seconds, Qle; simpl. nia.
    + apply IH. lia.
Qed.

Lemma increasing_times_grow (times : nat -> Z) :
  (forall n, times n < times (S n)) ->
  forall n, times 0%nat + Z.of_nat n <= times n.
Proof.
  intros Hinc. induction n as [|n IH]; [lia|].
  specialize (Hinc n). lia.
Qed.

Lemma cursor_reaches_end script t0 times :
  (forall n, times n < times (S n)) ->
  exists N, cursor script t0 times N = length script.
Proof.
  intros Hinc. destruct (all_due_eventually script) as [D HD].
  set (N := Z.to_nat (D + t0 - times 0%nat)).
  exists (S N). rewrite cursor_S. unfold next_index.
  pose proof (cursor_bound script t0 times N) as Hb.
  rewrite due_prefix_all.
  - rewrite length_map, length_skipn. lia.
  - pose proof (increasing_times_grow times Hinc N).
    assert (Hd : D <= times N - t0) by lia.
    specialize (HD _ Hd). rewrite Forall_forall in *.
    intros p Hp. apply HD. eapply skipn_In; eauto.
Qed.

(** ** Scripts with non-decreasing offsets *)

Section Sorted.

Lemma non_decreasing_tail p l :
  non_decreasing (p :: l) = true -> non_decreasing l = true.
Proof.
  destruct p as [o a], l as [|[o' a'] l]; simpl; auto.
  intros H. now apply andb_prop in H.
Qed.

Lemma non_decreasing_head l : forall o a,
  non_decreasing ((o, a) :: l) = true -> Forall (fun p => (o <= fst p)%Q) l.
Proof.
  induction l as [|[o' a'] l IH]; intros o a H; constructor.
  - simpl in H. apply andb_prop in H. now apply Qle_bool_iff.
  - simpl. pose proof H as H'. apply non_decreasing_tail in H'.
    apply IH in H'. simpl in H. apply andb_prop in H as [Ho _].
    apply Qle_bool_iff in Ho.
    eapply Forall_impl; [|exact H']. simpl. intros p Hp.
    eapply Qle_trans; eauto.
Qed.

Lemma non_decreasing_skipn n : forall l,
  non_decreasing l = true -> non_decreasing (skipn n l) = true.
Proof.
  induction n as [|n IH]; intros [|p l] H; simpl; auto.
  apply IH. eapply non_decreasing_tail; eauto.
Qed.

Lemma non_decreasing_firstn n : forall l,
  non_decreasing l = true -> non_decreasing (firstn n l) = true.
Proof.
  induction n as [|n IH]; intros [|[o a] l] H; auto.
  pose proof (IH l (non_decreasing_tail _ _ H)) as IHl.
  change (firstn (S n) ((o, a) :: l)) with ((o, a) :: firstn n l).
  destruct n as [|n]; [reflexivity|].
  destruct l as [|[o' a'] l]; [reflexivity|].
  simpl in H. apply andb_prop in H as [Ho _].
  change (firstn (S n) ((o', a') :: l)) with ((o', a') :: firstn n l) in *.
  change (Qle_bool o o' && non_decreasing ((o', a') :: firstn n l) = true).
  now rewrite Ho, IHl.
Qed.

Lemma due_prefix_due_at e l :
  non_decreasing l = true -> due_prefix e l = map snd (due_at e l).
Proof.
  induction l as [|[o a] l IH]; intros H; simpl; auto.
  destruct (Qle_bool o e) eqn:Ho; simpl.
  - f_equal. apply IH. eapply non_decreasing_tail; eauto.
  - apply non_decreasing_head in H. clear IH.
    induction H as [|p l Hp _ IH]; simpl; auto.
    destruct (Qle_bool (fst p) e) eqn:Hpe; auto.
    apply Qle_bool_iff in Hpe.
    assert (Qle_bool o e = true)
      by (apply Qle_bool_iff; eapply Qle_trans; eauto).
    congruence.
Qed.

End Sorted.

(** ** Properties of the sequencer *)

(** C1. For every script and every strictly increasing sequence of query
    times, each script entry is returned by exactly one call of
    [get_next_actions] (so no call returns it again), and each call returns
    the consecutive entries between the old and the new cursor, in script
    order; this is non-decreasing offset order when the script's offsets
    do not decrease. *)
Theorem each_action_returned_exactly_once (script : Script) (t0 : Z)
    (times : nat -> Z) :
  (forall n, times n < times (S n)) ->
  (forall i, (i < length script)%nat ->
     exists n, returned_by script t0 times n i /\
               forall m, returned_by script t0 times m i -> m = n)
  /\
  (forall n, exists outs d actions d',
     advance_all (start_dance (fresh script) t0) (first_calls times n)
       = Ok (outs, d) /\
     get_next_actions d (times n) = Ok (actions, d') /\
     (action_index d <= action_index d')%nat /\
     actions = map snd (firstn (action_index d' - action_index d)
                          (skipn (action_index d) script)) /\
     (non_decreasing script = true ->
      non_decreasing (firstn (action_index d' - action_index d)
                        (skipn (action_index d) script)) = true)).
Proof.
  intros Hinc. split.
  - intros i Hi.
    destruct (cursor_reaches_end script t0 times Hinc) as [N HN].
    destruct (crossing script t0 times i N) as [n Hn]; [lia|].
    exists n. split; [now apply returned_by_cursor|].
    intros m Hm. apply returned_by_cursor in Hm.
    eapply crossing_unique; eauto.
  - intros n. unfold start_dance, fresh; simpl.
    rewrite advance_all_started.
    eexists _, _, _, _. split; [reflexivity|].
    split; [apply (get_next_actions_started _ t0); reflexivity|].
    simpl. unfold next_index. repeat split.
    + lia.
    + rewrite Nat.add_comm, Nat.add_sub. apply due_prefix_firstn.
    + intros Hs. now apply non_decreasing_firstn, non_decreasing_skipn.
Qed.

Lemma each_action_returned_exactly_once_witness :
  (forall n, every_second n < every_second (S n)) /\
  exists n, returned_by example_script 0 every_second n 2 /\
            forall m, returned_by example_script 0 every_second m 2 -> m = n.
Proof.
  assert (H : forall n, every_second n < every_second (S n))
    by (intros n; unfold every_second; lia).
  split; [exact H|].
  apply (proj1 (each_action_returned_exactly_once example_script 0
                  every_second H)).
  simpl. lia.
Defined.

(** C7. Two calls of [get_next_actions] with the same time: the second
    returns nothing and leaves the choreographer as it is; the first
    returns, in script order, every entry not yet consumed whose offset is
    at most the elapsed time, for a script with non-decreasing offsets. *)
Theorem same_time_twice (script : Script) (c : nat) (st t : Z) :
  non_decreasing script = true ->
  exists actions d',
    get_next_actions (mkDanceChoreographer script c (Some st)) t
      = Ok (actions, d') /\
    actions = map snd (due_at (seconds (t - st)) (skipn c script)) /\
    get_next_actions d' t = Ok ([], d').
Proof.
  intros Hs.
  rewrite (get_next_actions_started _ st) by reflexivity. simpl.
  eexists _, _. split; [reflexivity|]. split.
  - apply due_prefix_due_at. now apply non_decreasing_skipn.
  - rewrite (get_next_actions_started _ st) by reflexivity. simpl.
    rewrite next_index_blocked.
    rewrite next_index_fixed by apply next_index_blocked. reflexivity.
Qed.

Lemma same_time_twice_witness :
  non_decreasing example_script = true /\
  exists actions d',
    get_next_actions (mkDanceChoreographer example_script 0 (Some 0))
      1500000000 = Ok (actions, d') /\
    actions = map snd (due_at (seconds (1500000000 - 0))
                         (skipn 0 example_script)) /\
    get_next_actions d' 1500000000 = Ok ([], d').
Proof.
  split; [reflexivity|].
  apply (same_time_twice example_script 0 0 1500000000). reflexivity.
Defined.

(** Without the order on offsets the first call can hold back an entry
    that is due: the loop stops at the first entry that is not. *)
Example unsorted_script_holds_back :
  get_next_actions
    (mkDanceChoreographer [(5, FinishedDance); (1, Move 1 0)]%Q 0 (Some 0))
    2000000000
  = Ok ([], mkDanceChoreographer [(5, FinishedDance); (1, Move 1 0)]%Q 0
              (Some 0)).
Proof. reflexivity. Qed.

Lemma due_at_seconds_0 (script : Script) :
  due_at (seconds 0) script = due_at 0 script.
Proof.
  apply filter_ext. intros p.
  apply Qleb_comp; [reflexivity | apply seconds_0].
Qed.

Lemma due_at_0_at_zero (script : Script) :
  non_negative script = true -> due_at 0 script = at_zero script.
Proof.
  intros Hn. apply filter_ext_in. intros p Hp.
  unfold non_negative in Hn. rewrite forallb_forall in Hn.
  specialize (Hn p Hp). apply Qle_bool_iff in Hn.
  destruct (Qle_bool (fst p) 0) eqn:Hle, (Qeq_bool (fst p) 0) eqn:Heq; auto.
  - apply Qle_bool_iff in Hle.
    assert (Qeq_bool (fst p) 0 = true)
      by (apply Qeq_bool_iff; now apply Qle_antisym).
    congruence.
  - apply Qeq_bool_iff in Heq.
    assert (Qle_bool (fst p) 0 = true)
      by (apply Qle_bool_iff; rewrite Heq; apply Qle_refl).
    congruence.
Qed.

(** C8. [get_next_actions] at the very time given to [start_dance] returns
    every entry whose offset is exactly 0, for a script with non-decreasing
    offsets: it returns the entries of offset at most 0 in script order,
    which are exactly those of offset 0 when no offset is negative. *)
Theorem zero_offset_fires_at_start (script : Script) (t : Z) :
  non_decreasing script = true ->
  exists actions d',
    get_next_actions (start_dance (fresh script) t) t = Ok (actions, d') /\
    actions = map snd (due_at 0 script) /\
    (forall off a, In (off, a) script -> (off == 0)%Q -> In a actions) /\
    (non_negative script = true -> actions = map snd (at_zero script)).
Proof.
  intros Hs.
  rewrite (get_next_actions_started _ t) by reflexivity. simpl.
  eexists _, _. split; [reflexivity|].
  rewrite Z.sub_diag, due_prefix_due_at, due_at_seconds_0 by assumption.
  repeat split.
  - intros off a Hin H0. apply in_map_iff. exists (off, a). split; auto.
    apply filter_In. split; auto. simpl.
    apply Qle_bool_iff. rewrite H0. apply Qle_refl.
  - intros Hn. now rewrite due_at_0_at_zero.
Qed.

Lemma zero_offset_fires_at_start_witness :
  non_decreasing example_script = true /\
  exists actions d',
    get_next_actions (start_dance (fresh example_script) 7) 7
      = Ok (actions, d') /\
    actions = map snd (due_at 0 example_script) /\
    (forall off a, In (off, a) example_script -> (off == 0)%Q ->
                   In a actions) /\
    (non_negative example_script = true ->
     actions = map snd (at_zero example_script)).
Proof.
  split; [reflexivity|].
  apply (zero_offset_fires_at_start example_script 7). reflexivity.
Defined.

Lemma apply_call_advance d t :
  dance_sequence (apply_call d (CallAdvance t)) = dance_sequence d /\
  (action_index d <= action_index (apply_call d (CallAdvance t)))%nat /\
  ((action_index d <= length (dance_sequence d))%nat ->
   (action_index (apply_call d (CallAdvance t))
    <= length (dance_sequence d))%nat).
Proof.
  simpl. destruct (start_time d) as [st|] eqn:Hst.
  - rewrite (get_next_actions_started _ st) by assumption. simpl.
    split; [reflexivity|]. split.
    + apply next_index_le.
    + apply next_index_bound.
  - unfold get_next_actions. rewrite Hst. auto.
Qed.

Lemma apply_calls_invariant cs : forall d,
  (action_index d <= length (dance_sequence d))%nat ->
  dance_sequence (apply_calls d cs) = dance_sequence d /\
  (action_index (apply_calls d cs) <= length (dance_sequence d))%nat.
Proof.
  unfold apply_calls.
  induction cs as [|c cs IH]; intros d Hd; simpl; auto.
  destruct c as [t|t].
  - destruct (IH (start_dance d t)) as [H1 H2]; simpl; [lia|]. auto.
  - destruct (apply_call_advance d t) as (Hseq & _ & Hb).
    destruct (IH (apply_call d (CallAdvance t))) as [H1 H2].
    + rewrite Hseq. auto.
    + rewrite Hseq in *. auto.
Qed.

(** C9. After any sequence of calls on a fresh choreographer the cursor
    is between 0 and the script length and the script is the one given at
    construction; a further [get_next_actions] never decreases the cursor,
    and a further [start_dance] records the time and puts the cursor back
    to 0, again and again, without touching the script. *)
Theorem cursor_in_bounds_and_monotone (script : Script) (cs : list call)
    (c : call) :
  let d := apply_calls (fresh script) cs in
  (0 <= action_index d <= length script)%nat /\
  dance_sequence d = script /\
  match c with
  | CallAdvance t =>
      (action_index d <= action_index (apply_call d c))%nat /\
      dance_sequence (apply_call d c) = script
  | CallStart t =>
      apply_call d c = mkDanceChoreographer script 0 (Some t) /\
      forall t', start_dance (apply_call d c) t'
                 = mkDanceChoreographer script 0 (Some t')
  end.
Proof.
  intros d.
  destruct (apply_calls_invariant cs (fresh script)) as [Hseq Hb];
    [simpl; lia|].
  fold d in Hseq, Hb. simpl in Hseq, Hb.
  split; [lia|]. split; [exact Hseq|].
  destruct c as [t|t].
  - simpl. unfold start_dance. rewrite Hseq. auto.
  - destruct (apply_call_advance d t) as (H1 & H2 & _).
    split; [exact H2|]. now rewrite H1.
Qed.

(** ** The tick of the publisher *)

Section Tick.

Lemma extends_refl f : extends f f.
Proof.
  repeat split. exists []. now rewrite app_nil_r.
Qed.

Lemma extends_trans f g h : extends f g -> extends g h -> extends f h.
Proof.
  intros (R1 & W1 & D1 & a1 & L1 & A1) (R2 & W2 & D2 & a2 & L2 & A2).
  repeat split; try congruence.
  exists (a1 ++ a2). rewrite L2, L1, <- app_assoc. split; auto.
  rewrite forallb_app, A1, A2. reflexivity.
Qed.

(** The [Lights] branch, by the length of the list. *)
Lemma for_body_lights_six now f cs :
  length cs = 6%nat ->
  for_body now f (Lights cs)
  = (mkFrame (set_last_lightring (node f) (mkLightringLeds 0 cs true))
       (twist f) (mkLightringLeds 0 cs true)
       (log f ++ log_lines now (Lights cs)), None).
Proof.
  intros Hlen. unfold for_body, set_leds. rewrite Hlen. simpl.
  destruct cs as [|c cs]; [discriminate | reflexivity].
Qed.

Lemma for_body_lights_refused now f cs :
  length cs <> 6%nat ->
  for_body now f (Lights cs)
  = (mkFrame (node f) (twist f) (set_override_system LightringLeds_new true)
       (log f), Some AssertionError).
Proof.
  intros Hlen. unfold for_body, set_leds.
  apply Nat.eqb_neq in Hlen. now rewrite Hlen.
Qed.

Lemma for_body_frame now f a f' r :
  for_body now f a = (f', r) ->
  aliased f -> (r = None -> aliased f') /\ extends f f'.
Proof.
  intros H [Ht Hl]. unfold aliased, extends.
  destruct a as [ax ath|cs|].
  - simpl in H. inversion H; subst; simpl. repeat split; auto.
    eexists; split; reflexivity.
  - destruct (Nat.eq_dec (length cs) 6) as [Hlen|Hlen].
    + rewrite (for_body_lights_six _ _ _ Hlen) in H.
      inversion H; subst; simpl. repeat split; auto.
      exists (log_lines now (Lights cs)). split; [reflexivity|].
      destruct cs; reflexivity.
    + rewrite (for_body_lights_refused _ _ _ Hlen) in H.
      inversion H; subst; simpl. repeat split; auto; try discriminate.
      exists []. now rewrite app_nil_r.
  - simpl in H. inversion H; subst; simpl. repeat split; auto.
    eexists; split; reflexivity.
Qed.

Lemma for_actions_frame now acts : forall f f' r,
  for_actions now acts f = (f', r) ->
  aliased f -> (r = None -> aliased f') /\ extends f f'.
Proof.
  induction acts as [|a acts IH]; intros f f' r H Hal; simpl in H.
  - inversion H; subst. split; [auto | apply extends_refl].
  - destruct (for_body now f a) as [g [e|]] eqn:Hb.
    + inversion H; subst. eapply for_body_frame; eauto.
    + destruct (for_body_frame _ _ _ _ _ Hb Hal) as [Hg Hfg].
      destruct (IH _ _ _ H (Hg eq_refl)) as [Hf' Hgf'].
      split; [assumption | eapply extends_trans; eauto].
Qed.

Lemma for_actions_returned now acts f f' :
  for_actions now acts f = (f', None) ->
  aliased f -> aliased f' /\ extends f f'.
Proof.
  intros H Hal. destruct (for_actions_frame _ _ _ _ _ H Hal) as [Ha He].
  auto.
Qed.

Lemma for_body_six_colours now f a :
  six_colours a = true -> snd (for_body now f a) = None.
Proof.
  destruct a as [ax ath|cs|]; [reflexivity | | reflexivity].
  intros Hlen. simpl in Hlen. apply Nat.eqb_eq in Hlen.
  now rewrite (for_body_lights_six _ _ _ Hlen).
Qed.

Lemma for_actions_six_colours now acts : forall f,
  forallb six_colours acts = true -> snd (for_actions now acts f) = None.
Proof.
  induction acts as [|a acts IH]; intros f H; simpl in *; auto.
  apply andb_prop in H as [Ha Hacts].
  pose proof (for_body_six_colours now f a Ha) as Hb.
  destruct (for_body now f a) as [g r]. simpl in Hb. subst r. auto.
Qed.


Lemma get_next_actions_nil d t d' :
  get_next_actions d t = Ok ([], d') -> d' = d.
Proof.
  destruct (start_time d) as [st|] eqn:Hst.
  - rewrite (get_next_actions_started _ st) by assumption.
    intros H. injection H as Hnil <-.
    rewrite next_index_fixed by assumption.
    destruct d; simpl in *. now subst.
  - unfold get_next_actions. rewrite Hst. discriminate.
Qed.

Lemma set_stamp_twice l t t' : set_stamp (set_stamp l t) t' = set_stamp l t'.
Proof. reflexivity. Qed.

(** A ready tick on which nothing fires. *)
Lemma idle_tick s i :
  ready s = true ->
  idle_at (dance_choreographer s) (current_time i) ->
  timer_callback s i
  = (set_last_lightring s (set_stamp (last_lightring s) (current_time i)),
     [PublishVel (last_twist s);
      PublishLights (set_stamp (last_lightring s) (current_time i))],
     None).
Proof.
  intros Hr Hidle. unfold timer_callback, publish_commands.
  rewrite Hr, Hidle. simpl. destruct s; reflexivity.
Qed.

(** Ready ticks on which nothing fires, one after the other. *)
Lemma idle_spin ticks : forall s,
  ready s = true ->
  Forall (fun i => idle_at (dance_choreographer s) (current_time i)) ticks ->
  exists s',
    spin s ticks
    = (map (fun i =>
              [PublishVel (last_twist s);
               PublishLights (set_stamp (last_lightring s) (current_time i))])
         ticks, s', None) /\
    last_twist s' = last_twist s /\
    dance_choreographer s' = dance_choreographer s.
Proof.
  induction ticks as [|i ticks IH]; intros s Hr Hidle; simpl.
  - eauto.
  - inversion Hidle as [|? ? Hi Hrest]; subst.
    rewrite idle_tick by assumption.
    destruct (IH (set_last_lightring s
                    (set_stamp (last_lightring s) (current_time i))))
      as (s' & Hspin & Htw & Hdc); auto.
    rewrite Hspin. simpl. eauto.
Qed.

End Tick.

Section Publish.

Lemma is_action_log_is_log l :
  forallb is_action_log l = true -> forallb is_log l = true.
Proof.
  induction l as [|e l IH]; simpl; auto.
  intros H. apply andb_prop in H as [He Hl]. rewrite IH by assumption.
  destruct e; simpl in *; auto; discriminate.
Qed.

Lemma is_action_log_no_waiting l :
  forallb is_action_log l = true -> ~ In LogWaiting l.
Proof.
  rewrite forallb_forall. intros H Hin. apply H in Hin. discriminate.
Qed.

(** What [publish_commands] leaves alone and what it emits, whether it
    returns or raises. *)
Lemma publish_commands_result s now logged s' evs r :
  publish_commands s now logged = (s', evs, r) ->
  ready s' = ready s /\
  last_wait_subscriber_printout s' = last_wait_subscriber_printout s /\
  exists added,
    forallb is_action_log added = true /\
    match r with
    | None => evs = logged ++ added
                      ++ [PublishVel (last_twist s');
                          PublishLights (last_lightring s')]
    | Some _ => evs = logged ++ added
    end.
Proof.
  unfold publish_commands.
  destruct (get_next_actions (dance_choreographer s) now)
    as [[acts d']|e] eqn:Hget.
  - destruct (for_actions now acts _) as [f r0] eqn:Hfor.
    apply for_actions_frame in Hfor
      as [Hal (Hr & Hw & _ & added & Hlog & Hadd)];
      [|split; reflexivity].
    simpl in Hr, Hw, Hlog.
    destruct r0; intros H; inversion H; subst; clear H; simpl;
      (split; [assumption|]); (split; [assumption|]);
      exists added; (split; [assumption|]).
    + assumption.
    + destruct (Hal eq_refl) as [Htw _].
      rewrite Hlog, <- app_assoc, Htw. reflexivity.
  - intros H; inversion H; subst.
    repeat split. exists []. now rewrite app_nil_r.
Qed.

Lemma due_prefix_six_colours e c script :
  six_leds script = true ->
  forallb six_colours (due_prefix e (skipn c script)) = true.
Proof.
  unfold six_leds. rewrite !forallb_forall. intros H a Ha.
  rewrite due_prefix_firstn in Ha. apply in_map_iff in Ha as (p & <- & Hp).
  apply H. eapply skipn_In.
  rewrite <- (firstn_skipn (length (due_prefix e (skipn c script)))
                (skipn c script)).
  apply in_or_app. left. exact Hp.
Qed.

(** A tick of a started node over a script whose [Lights] have six colours
    returns. *)
Lemma publish_commands_returns s now logged st :
  start_time (dance_choreographer s) = Some st ->
  six_leds (dance_sequence (dance_choreographer s)) = true ->
  exists s' evs, publish_commands s now logged = (s', evs, None).
Proof.
  intros Hst Hne. unfold publish_commands.
  rewrite (get_next_actions_started _ st) by assumption.
  match goal with |- context [for_actions ?n ?a ?f] =>
    pose proof (for_actions_six_colours n a f
                  (due_prefix_six_colours _ _ _ Hne)) as Hok;
    destruct (for_actions n a f) as [f' r] end.
  simpl in Hok. subst r. eauto.
Qed.

(** A tick that ends in the ready state has published. *)
Lemma tick_ending_ready s0 i s evs :
  timer_callback s0 i = (s, evs, None) ->
  ready s = true ->
  exists logged,
    evs = logged ++ [PublishVel (last_twist s);
                     PublishLights (last_lightring s)] /\
    forallb is_log logged = true.
Proof.
  unfold timer_callback. intros Htick Hr.
  destruct (ready s0) eqn:Hr0.
  - apply publish_commands_result in Htick as (_ & _ & added & Hadd & ->).
    exists added. split; [reflexivity|]. now apply is_action_log_is_log.
  - destruct (subscribers_connected _ _).
    + apply publish_commands_result in Htick as (_ & _ & added & Hadd & ->).
      eexists (_ :: added). split; [reflexivity|]. simpl.
      now apply is_action_log_is_log.
    + destruct (wait_printout_due _ _); inversion Htick; subst;
        simpl in Hr; congruence.
Qed.

Lemma after_gate_ready s i g logged0 :
  after_gate s i = Some (g, logged0) ->
  ready g = true /\ forallb is_log logged0 = true.
Proof.
  unfold after_gate. destruct (ready s) eqn:Hr.
  - intros H; injection H as <- <-. auto.
  - destruct (subscribers_connected _ _); [|discriminate].
    intros H; injection H as <- <-. auto.
Qed.

Lemma timer_callback_after_gate s i g logged0 :
  after_gate s i = Some (g, logged0) ->
  timer_callback s i = publish_commands g (current_time i) logged0.
Proof.
  unfold after_gate, timer_callback. destruct (ready s).
  - intros H; injection H as <- <-. reflexivity.
  - destruct (subscribers_connected _ _); [|discriminate].
    intros H; injection H as <- <-. reflexivity.
Qed.

(** A tick that returns has stamped the light command. *)
Lemma publish_commands_stamp s now logged s' evs :
  publish_commands s now logged = (s', evs, None) ->
  stamp (last_lightring s') = now.
Proof.
  unfold publish_commands.
  destruct (get_next_actions (dance_choreographer s) now) as [[acts d']|e];
    [|discriminate].
  destruct (for_actions now acts _) as [f [e|]]; [discriminate|].
  intros H; injection H as <- _. reflexivity.
Qed.


End Publish.

(** C2. The tick that follows a tick which ended in the ready state, and on
    which the sequencer returns nothing, publishes the velocity command of
    the previous tick and a light command with the leds and the override
    flag of the previous one, stamped with the current time.  Every tick
    that passes the readiness gate on a started node whose [Lights] all
    have six colours publishes both latched commands, once each, after its
    log lines, the light command stamped with the current time. *)
Theorem latch_persistence :
  (forall s0 i1 s evs1 i2,
     timer_callback s0 i1 = (s, evs1, None) ->
     ready s = true ->
     idle_at (dance_choreographer s) (current_time i2) ->
     exists logged tw lr s2 lr2,
       evs1 = logged ++ [PublishVel tw; PublishLights lr] /\
       forallb is_log logged = true /\
       timer_callback s i2 = (s2, [PublishVel tw; PublishLights lr2], None) /\
       stamp lr2 = current_time i2 /\
       leds lr2 = leds lr /\
       override_system lr2 = override_system lr)
  /\
  (forall s i g logged0 st,
     after_gate s i = Some (g, logged0) ->
     start_time (dance_choreographer g) = Some st ->
     six_leds (dance_sequence (dance_choreographer g)) = true ->
     exists s' logged,
       timer_callback s i
       = (s', logged ++ [PublishVel (last_twist s');
                         PublishLights (last_lightring s')], None) /\
       forallb is_log logged = true /\
       stamp (last_lightring s') = current_time i /\
       ready s' = true).
Proof.
  split.
  - intros s0 i1 s evs1 i2 Htick Hr Hidle.
    destruct (tick_ending_ready _ _ _ _ Htick Hr) as (logged & -> & Hlog).
    rewrite (idle_tick s i2 Hr Hidle).
    exists logged, (last_twist s), (last_lightring s).
    eexists _, _. repeat split; auto.
  - intros s i g logged0 st Hgate Hst Hsix.
    destruct (after_gate_ready _ _ _ _ Hgate) as [Hrg Hl0].
    rewrite (timer_callback_after_gate _ _ _ _ Hgate).
    destruct (publish_commands_returns g (current_time i) logged0 st Hst Hsix)
      as (s' & evs & Hpub).
    rewrite Hpub.
    pose proof (publish_commands_stamp _ _ _ _ _ Hpub) as Hstamp.
    apply publish_commands_result in Hpub as (Hr' & _ & added & Hadd & ->).
    exists s', (logged0 ++ added). rewrite <- app_assoc.
    repeat split; auto; [|congruence].
    rewrite forallb_app, Hl0. now apply is_action_log_is_log.
Qed.

Lemma latch_persistence_witness :
  ((timer_callback example_node (at_s 10)
    = (example_started, example_started_events, None) /\
    ready example_started = true /\
    idle_at (dance_choreographer example_started)
      (current_time (half_past 10))) /\
   exists logged tw lr s2 lr2,
     example_started_events = logged ++ [PublishVel tw; PublishLights lr] /\
     forallb is_log logged = true /\
     timer_callback example_started (half_past 10)
     = (s2, [PublishVel tw; PublishLights lr2], None) /\
     stamp lr2 = current_time (half_past 10) /\
     leds lr2 = leds lr /\
     override_system lr2 = override_system lr)
  /\
  ((after_gate example_started (at_s 11) = Some (example_started, []) /\
    start_time (dance_choreographer example_started) = Some 10000000000 /\
    six_leds (dance_sequence (dance_choreographer example_started)) = true) /\
   exists s' logged,
     timer_callback example_started (at_s 11)
     = (s', logged ++ [PublishVel (last_twist s');
                       PublishLights (last_lightring s')], None) /\
     forallb is_log logged = true /\
     stamp (last_lightring s') = current_time (at_s 11) /\
     ready s' = true).
Proof.
  split; split.
  - repeat split.
  - apply (proj1 latch_persistence example_node (at_s 10)); reflexivity.
  - repeat split.
  - apply (proj2 latch_persistence example_started (at_s 11) example_started
             [] 10000000000); reflexivity.
Defined.



(** C10. [start_dance] on the choreographer of a running node leaves
    [last_twist] and [last_lightring] as they are: the ticks after the
    restart, as long as no action fires, publish the commands latched before
    it (the light command with the stamp of the tick). *)
Theorem restart_keeps_latches (s : DanceCommandPublisher) (t : Z)
    (later : list tick_input) :
  ready s = true ->
  Forall (fun j => idle_at (start_dance (dance_choreographer s) t)
                     (current_time j)) later ->
  last_twist (restart s t) = last_twist s /\
  last_lightring (restart s t) = last_lightring s /\
  exists s2,
    spin (restart s t) later
    = (map (fun j => [PublishVel (last_twist s);
                      PublishLights (set_stamp (last_lightring s)
                                       (current_time j))])
         later, s2, None).
Proof.
  intros Hr Hidle. split; [reflexivity|]. split; [reflexivity|].
  destruct (idle_spin later (restart s t)) as (s2 & Hspin & _); eauto.
Qed.

Lemma restart_keeps_latches_witness :
  (ready example_moving = true /\
   Forall (fun j => idle_at (start_dance (dance_choreographer example_moving)
                               20000000000) (current_time j))
     [at_s 20; half_past 20]) /\
  last_twist (restart example_moving 20000000000)
  = mkTwist (mkVector3 (3 # 10) 0 0) (mkVector3 0 0 (1 # 2)) /\
  exists s2,
    spin (restart example_moving 20000000000) [at_s 20; half_past 20]
    = (map (fun j => [PublishVel (last_twist example_moving);
                      PublishLights (set_stamp (last_lightring example_moving)
                                       (current_time j))])
         [at_s 20; half_past 20], s2, None).
Proof.
  assert (Hidle : Forall (fun j => idle_at (start_dance
                                             (dance_choreographer example_moving)
                                             20000000000) (current_time j))
                    [at_s 20; half_past 20])
    by (repeat constructor).
  split; [split; [reflexivity | exact Hidle] |].
  split; [reflexivity|].
  apply (restart_keeps_latches example_moving 20000000000
           [at_s 20; half_past 20] eq_refl Hidle).
Defined.

(** ** The readiness gate *)

Section Gate.

Lemma publish_commands_no_waiting s now logged s' evs r :
  publish_commands s now logged = (s', evs, r) ->
  ~ In LogWaiting logged -> ~ In LogWaiting evs.
Proof.
  intros H Hlogged.
  apply publish_commands_result in H as (_ & _ & added & Hadd & Hevs).
  apply is_action_log_no_waiting in Hadd.
  destruct r; subst evs; rewrite ?in_app_iff; simpl; intuition discriminate.
Qed.

Lemma wait_printout_due_gap s now (last : Z) :
  last_wait_subscriber_printout s = Some last ->
  wait_printout_due s now = true ->
  last + 5000000000 < now.
Proof.
  unfold wait_printout_due. intros ->. intros H.
  apply negb_true_iff in H.
  destruct (Z_lt_le_dec (last + 5000000000) now) as [|Hle]; auto.
  assert (Qle_bool (seconds (now - last)) 5 = true).
  { apply Qle_bool_iff. unfold seconds, Qle; simpl. lia. }
  congruence.
Qed.

(** The tick that logs the waiting line records its time, and comes more
    than five seconds after the recorded one. *)
Lemma waiting_tick s i s' evs r :
  timer_callback s i = (s', evs, r) ->
  In LogWaiting evs ->
  last_wait_subscriber_printout s' = Some (current_time i) /\
  forall last, last_wait_subscriber_printout s = Some last ->
               last + 5000000000 < current_time i.
Proof.
  unfold timer_callback. intros H Hin.
  destruct (ready s).
  - eapply publish_commands_no_waiting in H; simpl; tauto.
  - destruct (subscribers_connected _ _).
    + eapply publish_commands_no_waiting in H; [tauto|].
      simpl. intuition discriminate.
    + destruct (wait_printout_due s (current_time i)) eqn:Hdue;
        inversion H; subst; [|destruct Hin].
      split; [reflexivity|]. intros last Hlast.
      eapply wait_printout_due_gap; eauto.
Qed.

(** The recorded time only moves forward. *)
Lemma last_wait_step s i s' evs r (last : Z) :
  timer_callback s i = (s', evs, r) ->
  last_wait_subscriber_printout s = Some last ->
  exists last', last_wait_subscriber_printout s' = Some last' /\
                last <= last'.
Proof.
  unfold timer_callback. intros H Hlast.
  destruct (ready s).
  - apply publish_commands_result in H as (_ & Hw & _).
    exists last. split; [congruence | lia].
  - destruct (subscribers_connected _ _).
    + apply publish_commands_result in H as (_ & Hw & _).
      exists last. split; [simpl in Hw; congruence | lia].
    + destruct (wait_printout_due s (current_time i)) eqn:Hdue;
        inversion H; subst; simpl.
      * exists (current_time i). split; [reflexivity|].
        pose proof (wait_printout_due_gap _ _ _ Hlast Hdue). lia.
      * exists last. split; [assumption | lia].
Qed.

(** Every waiting line of a run comes more than five seconds after the
    time recorded when the run begins. *)
Lemma waiting_after_recorded ticks : forall s trace s' r (last : Z),
  spin s ticks = (trace, s', r) ->
  last_wait_subscriber_printout s = Some last ->
  forall k ik evk,
    nth_error ticks k = Some ik -> nth_error trace k = Some evk ->
    In LogWaiting evk -> last + 5000000000 < current_time ik.
Proof.
  induction ticks as [|i ticks IH]; intros s trace s' r last Hspin Hlast
    k ik evk Hik Hevk Hin.
  - destruct k; discriminate.
  - simpl in Hspin.
    destruct (timer_callback s i) as [[s1 evs] r1] eqn:Htick.
    destruct k as [|k].
    + simpl in Hik. injection Hik as <-.
      assert (evk = evs).
      { destruct r1; [|destruct (spin s1 ticks) as [[tr s2] e]];
          inversion Hspin; subst; simpl in Hevk; congruence. }
      subst evk. eapply waiting_tick; eauto.
    + destruct r1.
      * inversion Hspin; subst. simpl in Hevk. destruct k; discriminate.
      * destruct (spin s1 ticks) as [[tr s2] e] eqn:Hrest.
        inversion Hspin; subst. simpl in Hik, Hevk.
        destruct (last_wait_step _ _ _ _ _ _ Htick Hlast)
          as (last' & Hlast' & Hle).
        pose proof (IH _ _ _ _ _ Hrest Hlast' _ _ _ Hik Hevk Hin). lia.
Qed.

Lemma waiting_lines_apart ticks : forall s trace s' r j k ij ik evj evk,
  spin s ticks = (trace, s', r) ->
  (j < k)%nat ->
  nth_error ticks j = Some ij -> nth_error trace j = Some evj ->
  nth_error ticks k = Some ik -> nth_error trace k = Some evk ->
  In LogWaiting evj -> In LogWaiting evk ->
  current_time ij + 5000000000 < current_time ik.
Proof.
  induction ticks as [|i ticks IH];
    intros s trace s' r j k ij ik evj evk Hspin Hjk Hij Hevj Hik Hevk Hj Hk.
  - destruct j; discriminate.
  - simpl in Hspin.
    destruct (timer_callback s i) as [[s1 evs] r1] eqn:Htick.
    destruct k as [|k]; [lia|].
    destruct r1.
    + inversion Hspin; subst. simpl in Hevk. destruct k; discriminate.
    + destruct (spin s1 ticks) as [[tr s2] e] eqn:Hrest.
      inversion Hspin; subst. simpl in Hik, Hevk.
      destruct j as [|j].
      * simpl in Hij, Hevj. injection Hij as <-. injection Hevj as <-.
        destruct (waiting_tick _ _ _ _ _ Htick Hj) as [Hrec _].
        eapply waiting_after_recorded; eauto.
      * simpl in Hij, Hevj.
        eapply (IH s1 _ _ _ j k ij ik evj evk); eauto. lia.
Qed.

(** A tick of a node that is not ready and sees no subscriber. *)
Lemma waiting_tick_silent s i :
  ready s = false ->
  subscribers_connected (vel_subscription_count i)
    (lights_subscription_count i) = false ->
  exists s' evs,
    timer_callback s i = (s', evs, None) /\
    (evs = [] \/ evs = [LogWaiting]) /\
    ready s' = false /\
    last_twist s' = last_twist s /\
    last_lightring s' = last_lightring s /\
    dance_choreographer s' = dance_choreographer s.
Proof.
  intros Hr Hc. unfold timer_callback. rewrite Hr, Hc.
  destruct (wait_printout_due s (current_time i));
    eexists _, _; (split; [reflexivity|]); simpl; auto 10.
Qed.

End Gate.

(** C3. While the node is not ready and sees no subscriber on the velocity
    topic, a tick publishes nothing: it logs the waiting line or does
    nothing, and the node stays not ready.  Any two waiting lines of a run
    are more than five seconds apart, so no five-second window holds two. *)
Theorem readiness_gate :
  (forall s ticks,
     ready s = false ->
     Forall (fun i => subscribers_connected (vel_subscription_count i)
                        (lights_subscription_count i) = false) ticks ->
     exists trace s',
       spin s ticks = (trace, s', None) /\
       length trace = length ticks /\
       Forall (fun evs => evs = [] \/ evs = [LogWaiting]) trace /\
       Forall (fun evs => forallb is_log evs = true) trace /\
       ready s' = false)
  /\
  (forall s ticks trace s' r j k ij ik evj evk,
     spin s ticks = (trace, s', r) ->
     (j < k)%nat ->
     nth_error ticks j = Some ij -> nth_error trace j = Some evj ->
     nth_error ticks k = Some ik -> nth_error trace k = Some evk ->
     In LogWaiting evj -> In LogWaiting evk ->
     current_time ij + 5000000000 < current_time ik).
Proof.
  split.
  - intros s ticks. revert s.
    induction ticks as [|i ticks IH]; intros s Hr Hc; simpl.
    + exists [], s. auto.
    + inversion Hc as [|? ? Hi Hrest]; subst.
      destruct (waiting_tick_silent s i Hr Hi)
        as (s1 & evs & Htick & Hevs & Hr1 & _).
      rewrite Htick.
      destruct (IH s1 Hr1 Hrest)
        as (trace & s' & Hspin & Hlen & Hall & Hlog & Hr').
      rewrite Hspin. exists (evs :: trace), s'. simpl.
      repeat split; auto.
      constructor; auto. destruct Hevs; subst; reflexivity.
  - intros. eapply waiting_lines_apart; eauto.
Qed.

Lemma readiness_gate_witness :
  ((ready example_node = false /\
    Forall (fun i => subscribers_connected (vel_subscription_count i)
                       (lights_subscription_count i) = false)
      [waiting_at 1; waiting_at 3; waiting_at 7]) /\
   exists trace s',
     spin example_node [waiting_at 1; waiting_at 3; waiting_at 7]
     = (trace, s', None) /\
     length trace = 3%nat /\
     Forall (fun evs => evs = [] \/ evs = [LogWaiting]) trace /\
     Forall (fun evs => forallb is_log evs = true) trace /\
     ready s' = false)
  /\
  current_time (waiting_at 1) + 5000000000 < current_time (waiting_at 7).
Proof.
  assert (Hc : Forall (fun i => subscribers_connected (vel_subscription_count i)
                                  (lights_subscription_count i) = false)
                 [waiting_at 1; waiting_at 3; waiting_at 7])
    by (repeat constructor).
  split.
  - split; [split; [reflexivity | exact Hc]|].
    apply (proj1 readiness_gate example_node
             [waiting_at 1; waiting_at 3; waiting_at 7] eq_refl Hc).
  - apply (proj2 readiness_gate example_node
             [waiting_at 1; waiting_at 3; waiting_at 7]
             [[LogWaiting]; []; [LogWaiting]]
             (snd (fst (spin example_node
                          [waiting_at 1; waiting_at 3; waiting_at 7])))
             None 0%nat 2%nat (waiting_at 1) (waiting_at 7)
             [LogWaiting] [LogWaiting]);
      try reflexivity; try (simpl; auto); lia.
Defined.

(** ** Construction *)

Lemma apply_call_started d c :
  start_time d <> None -> start_time (apply_call d c) <> None.
Proof.
  destruct c as [t|t]; simpl; [discriminate|].
  destruct (start_time d) as [st|] eqn:Hst; [|congruence].
  rewrite (get_next_actions_started _ st) by assumption. discriminate.
Qed.

Lemma apply_calls_started cs : forall d,
  start_time d <> None -> start_time (apply_calls d cs) <> None.
Proof.
  unfold apply_calls.
  induction cs as [|c cs IH]; intros d H; simpl; auto.
  apply IH, apply_call_started, H.
Qed.

(** C5, as the code has it.  Construction checks nothing and never fails:
    [Lights] stores a colour list of any length, [DanceChoreographer]
    stores any list of pairs with the cursor at 0; and once the dance is
    started, [get_next_actions] returns on every script, after any calls. *)
Theorem construction_accepts_any_script :
  (forall led_colors, Lights_init led_colors = Ok (Lights led_colors)) /\
  (forall script,
     DanceChoreographer_init script
     = Ok (mkDanceChoreographer script 0 None)) /\
  (forall script t0 cs t,
     exists actions d',
       get_next_actions (apply_calls (start_dance (fresh script) t0) cs) t
       = Ok (actions, d')).
Proof.
  split; [reflexivity|]. split; [reflexivity|].
  intros script t0 cs t.
  pose proof (apply_calls_started cs (start_dance (fresh script) t0)) as H.
  destruct (start_time (apply_calls (start_dance (fresh script) t0) cs))
    as [st|] eqn:Hst.
  - rewrite (get_next_actions_started _ st) by assumption. eauto.
  - exfalso. apply H; [discriminate | reflexivity].
Qed.

(** C5, as stated, fails: a one-colour [Lights] and a script with a
    negative and a decreasing offset are constructed without error. *)
Lemma malformed_script_is_constructed :
  Lights_init [ColorPalette.red] = Ok (Lights [ColorPalette.red]) /\
  non_decreasing malformed_script = false /\
  non_negative malformed_script = false /\
  DanceChoreographer_init malformed_script
  = Ok (mkDanceChoreographer malformed_script 0 None) /\
  ~ (exists e, Lights_init [ColorPalette.red] = Raise e) /\
  ~ (exists e, DanceChoreographer_init malformed_script = Raise e).
Proof.
  repeat split; intros [e H]; discriminate.
Qed.

(** A [Lights] that does not have six colours passes construction and
    stops the tick that consumes it: the message refuses the list. *)
Example short_lights_raises_in_tick :
  exists s' evs,
    timer_callback
      (DanceCommandPublisher_init (fresh [(0%Q, Lights [ColorPalette.red])]))
      (at_s 10)
    = (s', evs, Some AssertionError) /\
    filter is_publish evs = [].
Proof. eexists _, _. split; reflexivity. Qed.

(** ** A clock that goes backward *)

Lemma due_prefix_before_start script c d :
  non_negative script = true -> d < 0 ->
  due_prefix (seconds d) (skipn c script) = [].
Proof.
  intros Hn Hd. unfold non_negative in Hn. rewrite forallb_forall in Hn.
  destruct (skipn c script) as [|[off a] rest] eqn:Hskip; simpl; auto.
  assert (Hin : In (off, a) script)
    by (apply (skipn_In _ c); rewrite Hskip; now left).
  apply Hn, Qle_bool_iff in Hin. simpl in Hin.
  destruct (Qle_bool off (seconds d)) eqn:Hle; auto.
  apply Qle_bool_iff in Hle.
  assert (H0 : (0 <= seconds d)%Q) by (eapply Qle_trans; eauto).
  unfold seconds, Qle in H0; simpl in H0. lia.
Qed.

Lemma blocked_idle script c st t :
  due_prefix (seconds (t - st)) (skipn c script) = [] ->
  idle_at (mkDanceChoreographer script c (Some st)) t.
Proof.
  intros H. unfold idle_at.
  rewrite (get_next_actions_started _ st) by reflexivity. simpl.
  now rewrite H, next_index_fixed.
Qed.

(** C6, as the code has it.  When the time of a tick is not later than a
    time already passed to [get_next_actions] in this performance (or is
    earlier than the start time, for a script without negative offsets),
    the call returns no action and leaves the choreographer unchanged, and
    the tick logs nothing: it republishes the latched commands like any
    tick on which nothing is due. *)
Theorem clock_regression_is_a_silent_noop (script : Script) (t0 : Z)
    (ts : list Z) (outs : list (list Action)) (s : DanceCommandPublisher)
    (i : tick_input) :
  ready s = true ->
  advance_all (start_dance (fresh script) t0) ts
    = Ok (outs, dance_choreographer s) ->
  (exists t', In t' ts /\ current_time i <= t') \/
  (non_negative script = true /\ current_time i < t0) ->
  idle_at (dance_choreographer s) (current_time i) /\
  timer_callback s i
  = (set_last_lightring s (set_stamp (last_lightring s) (current_time i)),
     [PublishVel (last_twist s);
      PublishLights (set_stamp (last_lightring s) (current_time i))],
     None).
Proof.
  intros Hr Hrun Hback.
  assert (Hidle : idle_at (dance_choreographer s) (current_time i)).
  { unfold start_dance, fresh in Hrun. simpl in Hrun.
    rewrite advance_all_started in Hrun. injection Hrun as _ <-.
    apply blocked_idle. destruct Hback as [(t' & Hin & Hle)|[Hn Hlt]].
    - eapply due_prefix_nil_le;
        [|eapply cursor_after_observed; exact Hin].
      apply seconds_le. lia.
    - apply due_prefix_before_start; [assumption | lia]. }
  split; [exact Hidle | now apply idle_tick].
Qed.

Lemma clock_regression_is_a_silent_noop_witness :
  (ready example_finished = true /\
   advance_all (start_dance (fresh example_script) 10000000000)
     [10000000000; 12000000000]
   = Ok ([[Move (2 # 10) 0];
          [Lights (repeat ColorPalette.red 6); FinishedDance]],
         dance_choreographer example_finished) /\
   ((exists t', In t' [10000000000; 12000000000] /\
                current_time (at_s 11) <= t') \/
    (non_negative example_script = true /\
     current_time (at_s 11) < 10000000000))) /\
  idle_at (dance_choreographer example_finished) (current_time (at_s 11)) /\
  timer_callback example_finished (at_s 11)
  = (set_last_lightring example_finished
       (set_stamp (last_lightring example_finished) (current_time (at_s 11))),
     [PublishVel (last_twist example_finished);
      PublishLights (set_stamp (last_lightring example_finished)
                       (current_time (at_s 11)))],
     None).
Proof.
  assert (Hback : (exists t', In t' [10000000000; 12000000000] /\
                              current_time (at_s 11) <= t') \/
                  (non_negative example_script = true /\
                   current_time (at_s 11) < 10000000000)).
  { left. exists 12000000000. split; [simpl; auto | simpl; lia]. }
  split; [repeat split; exact Hback|].
  apply (clock_regression_is_a_silent_noop example_script 10000000000
           [10000000000; 12000000000]
           [[Move (2 # 10) 0];
            [Lights (repeat ColorPalette.red 6); FinishedDance]]
           example_finished (at_s 11) eq_refl eq_refl Hback).
Defined.

(** C6, as stated, fails: at a tick whose time is one second earlier than
    the previous tick's, the call returns normally and the tick emits no log
    line at all, only the two publications. *)
Lemma clock_regression_is_not_surfaced :
  exists s' evs,
    timer_callback example_finished (at_s 11) = (s', evs, None) /\
    current_time (at_s 11) < current_time (at_s 12) /\
    get_next_actions (dance_choreographer example_finished)
      (current_time (at_s 11))
    = Ok ([], dance_choreographer example_finished) /\
    evs = [PublishVel Twist_new;
           PublishLights (neutral_lightring (current_time (at_s 11)))] /\
    ~ (exists e, In e evs /\ is_log e = true).
Proof.
  eexists _, _. split; [reflexivity|]. split; [reflexivity|].
  split; [reflexivity|]. split; [reflexivity|].
  intros (e & [<-|[<-|[]]] & H); discriminate.
Qed.

(** ** Further properties of the sequencer *)

Section MoreSequencer.

Lemma apply_calls_unstarted cs : forall d,
  start_time d = None -> has_start cs = false -> apply_calls d cs = d.
Proof.
  unfold apply_calls.
  induction cs as [|[t|t] cs IH]; intros d Hd Hcs; simpl in *; auto.
  - discriminate.
  - unfold get_next_actions. rewrite Hd. auto.
Qed.

Lemma apply_calls_with_start cs : forall d,
  has_start cs = true -> start_time (apply_calls d cs) <> None.
Proof.
  unfold apply_calls.
  induction cs as [|[t|t] cs IH]; intros d Hcs; simpl in *.
  - discriminate.
  - apply (apply_calls_started cs). discriminate.
  - auto.
Qed.

Lemma due_prefix_split e e' l :
  (e <= e')%Q ->
  due_prefix e' l
  = due_prefix e l ++ due_prefix e' (skipn (length (due_prefix e l)) l).
Proof.
  intros Hle. induction l as [|[off a] l IH]; simpl; auto.
  destruct (Qle_bool off e) eqn:He; simpl.
  - assert (He' : Qle_bool off e' = true)
      by (apply Qle_bool_iff; apply Qle_bool_iff in He;
          eapply Qle_trans; eauto).
    rewrite He'. now rewrite <- IH.
  - reflexivity.
Qed.

Lemma next_index_absorb script e e' c :
  (e <= e')%Q ->
  next_index script e' (next_index script e c) = next_index script e' c.
Proof.
  intros Hle. unfold next_index at 1 3.
  rewrite (due_prefix_split e e' (skipn c script) Hle), length_app.
  unfold next_index. rewrite skipn_add. lia.
Qed.

Lemma firstn_add {A} (a b : nat) : forall l : list A,
  firstn (a + b) l = firstn a l ++ firstn b (skipn a l).
Proof.
  induction a as [|a IH]; intros [|h l]; simpl; auto.
  - now rewrite firstn_nil.
  - now rewrite IH.
Qed.

Lemma outputs_concat script t0 ts : forall c,
  concat (outputs script t0 c ts)
  = map snd (firstn (cursor_after script t0 c ts - c) (skipn c script)).
Proof.
  induction ts as [|t ts IH]; intros c; simpl.
  - now rewrite Nat.sub_diag.
  - rewrite IH.
    pose proof (cursor_after_le script t0 ts
                  (next_index script (seconds (t - t0)) c)) as Hle.
    pose proof (next_index_le script (seconds (t - t0)) c) as Hle'.
    replace (cursor_after script t0
               (next_index script (seconds (t - t0)) c) ts - c)%nat
      with (length (due_prefix (seconds (t - t0)) (skipn c script))
            + (cursor_after script t0
                 (next_index script (seconds (t - t0)) c) ts
               - next_index script (seconds (t - t0)) c))%nat
      by (unfold next_index in *; lia).
    rewrite firstn_add, map_app, <- due_prefix_firstn.
    unfold next_index at 3. now rewrite skipn_add.
Qed.

Lemma outputs_length script t0 ts : forall c,
  length (outputs script t0 c ts) = length ts.
Proof. induction ts as [|t ts IH]; intros c; simpl; auto. Qed.

Lemma outputs_shift script t0 k ts : forall c,
  outputs script (t0 + k) c (map (fun t => t + k) ts) = outputs script t0 c ts
  /\ cursor_after script (t0 + k) c (map (fun t => t + k) ts)
     = cursor_after script t0 c ts.
Proof.
  induction ts as [|t ts IH]; intros c; simpl; auto.
  replace (t + k - (t0 + k)) with (t - t0) by lia.
  destruct (IH (next_index script (seconds (t - t0)) c)) as [-> ->]. auto.
Qed.

Lemma polled_outputs script st t ts : forall c,
  Forall (fun u => u <= t) ts ->
  concat (outputs script st c (ts ++ [t]))
  = due_prefix (seconds (t - st)) (skipn c script) /\
  cursor_after script st c (ts ++ [t])
  = next_index script (seconds (t - st)) c.
Proof.
  induction ts as [|u ts IH]; intros c Hall; simpl.
  - now rewrite app_nil_r.
  - inversion Hall as [|? ? Hu Hrest]; subst.
    destruct (IH (next_index script (seconds (u - st)) c) Hrest) as [-> ->].
    assert (Hle : (seconds (u - st) <= seconds (t - st))%Q)
      by (apply seconds_le; lia).
    split.
    + rewrite (due_prefix_split _ _ (skipn c script) Hle).
      unfold next_index. now rewrite skipn_add.
    + now apply next_index_absorb.
Qed.

End MoreSequencer.

(** X1. [get_next_actions] raises [AttributeError] exactly when no
    [start_dance] came before it: after calls without a start the object is
    still as constructed and the call raises; after calls with a start it
    returns. *)
Theorem advance_raises_iff_never_started (script : Script) (cs : list call)
    (t : Z) :
  if has_start cs
  then exists actions d',
         get_next_actions (apply_calls (fresh script) cs) t
         = Ok (actions, d')
  else apply_calls (fresh script) cs = fresh script /\
       get_next_actions (apply_calls (fresh script) cs) t
       = Raise AttributeError.
Proof.
  destruct (has_start cs) eqn:Hcs.
  - pose proof (apply_calls_with_start cs (fresh script) Hcs) as H.
    destruct (start_time (apply_calls (fresh script) cs)) as [st|] eqn:Hst;
      [|congruence].
    rewrite (get_next_actions_started _ st) by assumption. eauto.
  - rewrite apply_calls_unstarted by auto. auto.
Qed.

(** X2. Polling more often delivers the same: calls at any times not later
    than [t], followed by a call at [t], return together, in order, exactly
    what a single call at [t] returns, and leave the same cursor. *)
Theorem polling_rate_does_not_matter (script : Script) (c : nat) (st t : Z)
    (ts : list Z) :
  Forall (fun u => u <= t) ts ->
  exists outs d',
    advance_all (mkDanceChoreographer script c (Some st)) (ts ++ [t])
    = Ok (outs, d') /\
    get_next_actions (mkDanceChoreographer script c (Some st)) t
    = Ok (concat outs, d').
Proof.
  intros Hall. rewrite advance_all_started.
  rewrite (get_next_actions_started _ st) by reflexivity. simpl.
  eexists _, _. split; [reflexivity|].
  destruct (polled_outputs script st t ts c Hall) as [-> ->]. reflexivity.
Qed.

Lemma polling_rate_does_not_matter_witness :
  Forall (fun u => u <= 2500000000) [300000000; 1200000000; 700000000] /\
  exists outs d',
    advance_all (mkDanceChoreographer example_script 0 (Some 0))
      ([300000000; 1200000000; 700000000] ++ [2500000000])
    = Ok (outs, d') /\
    get_next_actions (mkDanceChoreographer example_script 0 (Some 0))
      2500000000
    = Ok (concat outs, d').
Proof.
  assert (H : Forall (fun u => u <= 2500000000)
                [300000000; 1200000000; 700000000])
    by (repeat constructor; lia).
  split; [exact H|].
  apply (polling_rate_does_not_matter example_script 0 0 2500000000
           [300000000; 1200000000; 700000000] H).
Defined.

(** X3. Whatever the times of the calls (increasing or not), everything the
    calls of one performance return, put end to end, is the script's actions
    from the first up to the cursor: nothing is skipped, repeated or
    reordered; and there is one result per call. *)
Theorem returned_actions_form_script_prefix (script : Script) (t0 : Z)
    (ts : list Z) :
  exists outs d',
    advance_all (start_dance (fresh script) t0) ts = Ok (outs, d') /\
    concat outs = map snd (firstn (action_index d') script) /\
    length outs = length ts /\
    (action_index d' <= length script)%nat.
Proof.
  unfold start_dance, fresh. simpl. rewrite advance_all_started.
  eexists _, _. split; [reflexivity|]. simpl.
  rewrite outputs_concat, outputs_length, Nat.sub_0_r. simpl.
  repeat split. apply cursor_after_bound. lia.
Qed.

(** X4. Only the time since the start matters: a performance started [k]
    nanoseconds later and queried [k] nanoseconds later returns the same
    actions call by call and reaches the same cursor. *)
Theorem performance_depends_on_elapsed_time_only (script : Script)
    (t0 k : Z) (ts : list Z) :
  exists outs c,
    advance_all (start_dance (fresh script) t0) ts
    = Ok (outs, mkDanceChoreographer script c (Some t0)) /\
    advance_all (start_dance (fresh script) (t0 + k))
      (map (fun t => t + k) ts)
    = Ok (outs, mkDanceChoreographer script c (Some (t0 + k))).
Proof.
  unfold start_dance, fresh. simpl. rewrite !advance_all_started.
  destruct (outputs_shift script t0 k ts 0%nat) as [-> ->]. eauto.
Qed.

(** X5. What one call returns: the entries from the old cursor up to the
    new one, each of them due (offset at most the elapsed seconds), and the
    entry the new cursor stops at, if any, is not due. *)
Theorem call_returns_due_entries_and_stops (script : Script) (c : nat)
    (st t : Z) :
  exists c',
    get_next_actions (mkDanceChoreographer script c (Some st)) t
    = Ok (map snd (firstn (c' - c) (skipn c script)),
          mkDanceChoreographer script c' (Some st)) /\
    (c <= c')%nat /\
    (forall i off a,
       (c <= i < c')%nat -> nth_error script i = Some (off, a) ->
       (off <= seconds (t - st))%Q) /\
    (forall off a,
       nth_error script c' = Some (off, a) -> (seconds (t - st) < off)%Q).
Proof.
  rewrite (get_next_actions_started _ st) by reflexivity. simpl.
  set (e := seconds (t - st)).
  exists (next_index script e c).
  assert (Hk : (next_index script e c - c
                = length (due_prefix e (skipn c script)))%nat)
    by (unfold next_index; lia).
  split; [|split; [apply next_index_le|split]].
  - rewrite Hk, <- due_prefix_firstn. reflexivity.
  - intros i off a Hi Hnth.
    assert (Hgen : forall l j,
              (j < length (due_prefix e l))%nat ->
              nth_error l j = Some (off, a) -> (off <= e)%Q).
    { induction l as [|[o b] l IH]; intros j Hj Hl; simpl in Hj; [lia|].
      destruct (Qle_bool o e) eqn:Ho; simpl in Hj; [|lia].
      destruct j as [|j]; simpl in Hl.
      - injection Hl as -> _. now apply Qle_bool_iff.
      - apply (IH j); [lia | assumption]. }
    apply (Hgen (skipn c script) (i - c)%nat); [lia|].
    rewrite nth_error_skipn. replace (c + (i - c))%nat with i by lia.
    exact Hnth.
  - intros off a Hnth.
    pose proof (next_index_blocked script e c) as Hb.
    rewrite (skipn_nth_error script (next_index script e c)), Hnth in Hb.
    simpl in Hb. destruct (Qle_bool off e) eqn:Ho; [discriminate|].
    apply Qnot_le_lt. intros Hle. apply Qle_bool_iff in Hle. congruence.
Qed.

(** ** Further properties of the tick *)

Section MoreTick.

Lemma for_actions_cons now a rest f :
  for_actions now (a :: rest) f
  = match for_body now f a with
    | (f', None) => for_actions now rest f'
    | (f', Some e) => (f', Some e)
    end.
Proof. reflexivity. Qed.

Lemma for_actions_app now a : forall b f,
  for_actions now (a ++ b) f
  = match for_actions now a f with
    | (g, None) => for_actions now b g
    | (g, Some e) => (g, Some e)
    end.
Proof.
  induction a as [|h a IH]; intros b f; simpl; auto.
  destruct (for_body now f h) as [g [e|]]; auto.
Qed.

Lemma for_body_log now f a :
  six_colours a = true ->
  exists g, for_body now f a = (g, None) /\
            log g = log f ++ log_lines now a.
Proof.
  destruct a as [ax ath|cs|]; intros Ha.
  - eexists. split; reflexivity.
  - simpl in Ha. apply Nat.eqb_eq in Ha.
    rewrite (for_body_lights_six _ _ _ Ha). eexists. split; reflexivity.
  - eexists. split; reflexivity.
Qed.

Lemma for_actions_log now acts : forall f,
  forallb six_colours acts = true ->
  exists f',
    for_actions now acts f = (f', None) /\
    log f' = log f ++ flat_map (log_lines now) acts.
Proof.
  induction acts as [|a acts IH]; intros f H.
  - exists f. simpl. now rewrite app_nil_r.
  - simpl in H. apply andb_prop in H as [Ha Hacts].
    destruct (for_body_log now f a Ha) as (g & Hb & Hg).
    destruct (IH g Hacts) as (f' & Hfor & Hl).
    exists f'. simpl. rewrite Hb, Hfor. split; [reflexivity|].
    now rewrite Hl, Hg, <- app_assoc.
Qed.

Lemma for_body_keeps_twist now f a g r :
  for_body now f a = (g, r) ->
  writes_twist a = false ->
  last_twist (node g) = last_twist (node f).
Proof.
  destruct a as [ax ath|cs|]; try discriminate. intros H _.
  destruct (Nat.eq_dec (length cs) 6) as [Hlen|Hlen].
  - rewrite (for_body_lights_six _ _ _ Hlen) in H. now inversion H.
  - rewrite (for_body_lights_refused _ _ _ Hlen) in H. now inversion H.
Qed.

Lemma for_body_keeps_lightring now f a g r :
  for_body now f a = (g, r) ->
  writes_lightring a = false ->
  last_lightring (node g) = last_lightring (node f).
Proof.
  destruct a as [ax ath|cs|]; try discriminate. intros H _.
  simpl in H. now inversion H.
Qed.

Lemma for_actions_keeps_twist now acts : forall f f' r,
  for_actions now acts f = (f', r) ->
  existsb writes_twist acts = false ->
  last_twist (node f') = last_twist (node f).
Proof.
  induction acts as [|a acts IH]; intros f f' r H Hw; simpl in *.
  - now inversion H.
  - apply orb_false_elim in Hw as [Ha Hacts].
    destruct (for_body now f a) as [g [e|]] eqn:Hb.
    + inversion H; subst. eapply for_body_keeps_twist; eauto.
    + rewrite (IH _ _ _ H Hacts). eapply for_body_keeps_twist; eauto.
Qed.

Lemma for_actions_keeps_lightring now acts : forall f f' r,
  for_actions now acts f = (f', r) ->
  existsb writes_lightring acts = false ->
  last_lightring (node f') = last_lightring (node f).
Proof.
  induction acts as [|a acts IH]; intros f f' r H Hw; simpl in *.
  - now inversion H.
  - apply orb_false_elim in Hw as [Ha Hacts].
    destruct (for_body now f a) as [g [e|]] eqn:Hb.
    + inversion H; subst. eapply for_body_keeps_lightring; eauto.
    + rewrite (IH _ _ _ H Hacts). eapply for_body_keeps_lightring; eauto.
Qed.

Lemma get_next_actions_frame d t acts d' :
  get_next_actions d t = Ok (acts, d') ->
  dance_sequence d' = dance_sequence d /\ start_time d' = start_time d.
Proof.
  destruct (start_time d) as [st|] eqn:Hst.
  - rewrite (get_next_actions_started _ st) by assumption.
    intros H. injection H as _ <-. auto.
  - unfold get_next_actions. rewrite Hst. discriminate.
Qed.

Lemma log_lines_are_logs now acts :
  forallb is_log (flat_map (log_lines now) acts) = true.
Proof.
  induction acts as [|a acts IH]; simpl; auto.
  rewrite forallb_app, IH.
  destruct a as [ax ath|[|c cs]|]; reflexivity.
Qed.

(** The latch an action that is carried out leaves. *)
Lemma for_body_latch now g a h :
  six_colours a = true ->
  for_body now g a = (h, None) ->
  (forall tw, twist_of a = Some tw -> last_twist (node h) = tw) /\
  (forall lr, lightring_of a = Some lr -> last_lightring (node h) = lr).
Proof.
  intros Ha Hb. destruct a as [ax ath|cs|].
  - simpl in Hb. inversion Hb; subst; simpl.
    split; intros m Hm; [injection Hm as <-; reflexivity | discriminate].
  - simpl in Ha. apply Nat.eqb_eq in Ha.
    rewrite (for_body_lights_six _ _ _ Ha) in Hb. inversion Hb; subst; simpl.
    split; intros m Hm; [discriminate | injection Hm as <-; reflexivity].
  - simpl in Hb. inversion Hb; subst; simpl.
    split; intros m Hm; injection Hm as <-; reflexivity.
Qed.

(** The events and the node of a tick whose [Lights] all have six
    colours. *)
Lemma publish_commands_six_colours s now logged acts d' :
  get_next_actions (dance_choreographer s) now = Ok (acts, d') ->
  forallb six_colours acts = true ->
  exists s',
    publish_commands s now logged
    = (s', logged ++ flat_map (log_lines now) acts
             ++ [PublishVel (last_twist s');
                 PublishLights (last_lightring s')], None) /\
    stamp (last_lightring s') = now /\
    dance_choreographer s' = d' /\
    ready s' = ready s /\
    last_wait_subscriber_printout s' = last_wait_subscriber_printout s.
Proof.
  intros Hget Hlog. unfold publish_commands. rewrite Hget.
  match goal with |- context [for_actions now acts ?f] =>
    destruct (for_actions_log now acts f Hlog) as (f' & Hfor & Hl);
    rewrite Hfor;
    apply for_actions_returned in Hfor
      as [[Htw Hlr] (Hr & Hw & Hdc & _)]; [|split; reflexivity] end.
  simpl in *.
  exists (set_last_lightring (node f') (set_stamp (lightring f') now)).
  split; [|repeat split; auto].
  rewrite Hl, Htw, <- app_assoc. reflexivity.
Qed.

End MoreTick.

(** X6. A ready tick on which every fired [Lights] has six colours emits
    one log line per fired action, in the order the sequencer returned
    them, then the velocity command and the light command, the latter
    stamped with the time of the tick; the node keeps the advanced
    choreographer. *)
Theorem tick_logs_each_action_then_publishes (s : DanceCommandPublisher)
    (i : tick_input) (acts : list Action) (d' : DanceChoreographer) :
  ready s = true ->
  get_next_actions (dance_choreographer s) (current_time i) = Ok (acts, d') ->
  forallb six_colours acts = true ->
  exists s',
    timer_callback s i
    = (s', flat_map (log_lines (current_time i)) acts
             ++ [PublishVel (last_twist s');
                 PublishLights (last_lightring s')], None) /\
    stamp (last_lightring s') = current_time i /\
    dance_choreographer s' = d'.
Proof.
  intros Hr Hget Hlog. unfold timer_callback. rewrite Hr.
  destruct (publish_commands_six_colours s (current_time i) [] acts d'
              Hget Hlog)
    as (s' & Hpub & Hstamp & Hdc & _).
  exists s'. rewrite Hpub. auto.
Qed.

Lemma tick_logs_each_action_then_publishes_witness :
  (ready example_started = true /\
   get_next_actions (dance_choreographer example_started)
     (current_time (at_s 12))
   = Ok ([Lights (repeat ColorPalette.red 6); FinishedDance],
         mkDanceChoreographer example_script 3 (Some 10000000000)) /\
   forallb six_colours [Lights (repeat ColorPalette.red 6); FinishedDance]
   = true) /\
  exists s',
    timer_callback example_started (at_s 12)
    = (s', flat_map (log_lines (current_time (at_s 12)))
             [Lights (repeat ColorPalette.red 6); FinishedDance]
             ++ [PublishVel (last_twist s');
                 PublishLights (last_lightring s')], None) /\
    stamp (last_lightring s') = current_time (at_s 12) /\
    dance_choreographer s'
    = mkDanceChoreographer example_script 3 (Some 10000000000).
Proof.
  split; [repeat split|].
  apply (tick_logs_each_action_then_publishes example_started (at_s 12)
           [Lights (repeat ColorPalette.red 6); FinishedDance]
           (mkDanceChoreographer example_script 3 (Some 10000000000))
           eq_refl eq_refl eq_refl).
Defined.

(** X7. When several actions fire on one tick, every [Lights] among them
    with six colours, the last one of each kind decides what is latched and
    published: an action that assigns the velocity command, followed only
    by actions that do not, leaves its command in [last_twist]; likewise
    for the light command, which also gets the stamp of the tick.
    Commands of earlier actions of the tick are never published. *)
Theorem last_action_of_each_kind_wins (s : DanceCommandPublisher)
    (i : tick_input) (pre post : list Action) (a : Action)
    (d' : DanceChoreographer) :
  ready s = true ->
  get_next_actions (dance_choreographer s) (current_time i)
  = Ok (pre ++ a :: post, d') ->
  forallb six_colours (pre ++ a :: post) = true ->
  exists s' logged,
    timer_callback s i
    = (s', logged ++ [PublishVel (last_twist s');
                      PublishLights (last_lightring s')], None) /\
    forallb is_log logged = true /\
    (forall tw, twist_of a = Some tw ->
                existsb writes_twist post = false -> last_twist s' = tw) /\
    (forall lr, lightring_of a = Some lr ->
                existsb writes_lightring post = false ->
                last_lightring s' = set_stamp lr (current_time i)).
Proof.
  intros Hr Hget Hlog. unfold timer_callback, publish_commands.
  rewrite Hr, Hget.
  match goal with |- context [for_actions ?n ?l ?f] =>
    destruct (for_actions_log n l f Hlog) as (f' & Hfor & Hl);
    rewrite Hfor; pose proof Hfor as Hframe;
    apply for_actions_returned in Hframe
      as [[Htw Hlr] _]; [|split; reflexivity]
  end.
  simpl in Hl. rewrite Hl.
  exists (set_last_lightring (node f')
            (set_stamp (lightring f') (current_time i))),
         (flat_map (log_lines (current_time i)) (pre ++ a :: post)).
  split; [simpl; now rewrite Htw|].
  rewrite for_actions_app in Hfor.
  destruct (for_actions (current_time i) pre _) as [g [e|]] eqn:Hpre;
    [discriminate|].
  simpl in Hfor.
  destruct (for_body (current_time i) g a) as [h [e|]] eqn:Hbody;
    [discriminate|].
  assert (Ha6 : six_colours a = true).
  { rewrite forallb_app in Hlog. apply andb_prop in Hlog as [_ Hlog].
    simpl in Hlog. now apply andb_prop in Hlog. }
  destruct (for_body_latch _ _ _ _ Ha6 Hbody) as [Hatw Halr].
  split; [apply log_lines_are_logs|]. split.
  - intros tw Ha Hpost. simpl.
    rewrite (for_actions_keeps_twist _ _ _ _ _ Hfor Hpost). now apply Hatw.
  - intros lr Ha Hpost. simpl. rewrite Hlr.
    rewrite (for_actions_keeps_lightring _ _ _ _ _ Hfor Hpost).
    now rewrite (Halr lr Ha).
Qed.

Lemma last_action_of_each_kind_wins_witness :
  (ready busy_node = true /\
   get_next_actions (dance_choreographer busy_node) (current_time (at_s 0))
   = Ok ([Move 1 0; Lights (repeat ColorPalette.red 6)]
           ++ Move (1 # 2) (1 # 4)
           :: [Lights (repeat ColorPalette.green 6)],
         mkDanceChoreographer busy_script 4 (Some 0)) /\
   forallb six_colours
     ([Move 1 0; Lights (repeat ColorPalette.red 6)]
        ++ Move (1 # 2) (1 # 4) :: [Lights (repeat ColorPalette.green 6)])
   = true /\
   twist_of (Move (1 # 2) (1 # 4)) = Some (move_twist (1 # 2) (1 # 4)) /\
   existsb writes_twist [Lights (repeat ColorPalette.green 6)] = false) /\
  exists s' logged,
    timer_callback busy_node (at_s 0)
    = (s', logged ++ [PublishVel (last_twist s');
                      PublishLights (last_lightring s')], None) /\
    last_twist s' = move_twist (1 # 2) (1 # 4).
Proof.
  split; [repeat split|].
  destruct (last_action_of_each_kind_wins busy_node (at_s 0)
              [Move 1 0; Lights (repeat ColorPalette.red 6)]
              [Lights (repeat ColorPalette.green 6)]
              (Move (1 # 2) (1 # 4))
              (mkDanceChoreographer busy_script 4 (Some 0))
              eq_refl eq_refl eq_refl)
    as (s' & logged & Htick & _ & Htw & _).
  exists s', logged. split; [exact Htick|].
  apply Htw; reflexivity.
Defined.

Section Abort.


End Abort.



(** ** The run of a node *)

Section Run.

Lemma action_logs_no_start_line l :
  forallb is_action_log l = true -> existsb is_start_line l = false.
Proof.
  induction l as [|e l IH]; simpl; auto.
  intros H. apply andb_prop in H as [He Hl]. rewrite IH by assumption.
  destruct e; simpl in *; auto; discriminate.
Qed.

Lemma publish_commands_choreographer s now logged s' evs r :
  publish_commands s now logged = (s', evs, r) ->
  dance_sequence (dance_choreographer s')
  = dance_sequence (dance_choreographer s) /\
  start_time (dance_choreographer s') = start_time (dance_choreographer s).
Proof.
  unfold publish_commands.
  destruct (get_next_actions (dance_choreographer s) now)
    as [[acts d']|e] eqn:Hget.
  - apply get_next_actions_frame in Hget as [Hseq Hst].
    destruct (for_actions now acts _) as [f r0] eqn:Hfor.
    apply for_actions_frame in Hfor as [_ (_ & _ & Hdc & _)];
      [|split; reflexivity].
    simpl in Hdc.
    destruct r0; intros H; injection H as <- _ _; simpl; rewrite Hdc; auto.
  - intros H; injection H as <- _ _. auto.
Qed.

(** A tick of a ready node: it stays ready, on the same performance, and
    logs no start line. *)
Lemma ready_tick s i s' evs r :
  ready s = true ->
  timer_callback s i = (s', evs, r) ->
  ready s' = true /\
  start_time (dance_choreographer s') = start_time (dance_choreographer s) /\
  existsb is_start_line evs = false.
Proof.
  intros Hr. unfold timer_callback. rewrite Hr. intros H.
  pose proof (publish_commands_choreographer _ _ _ _ _ _ H) as [_ Hst].
  apply publish_commands_result in H as (Hr' & _ & added & Hadd & Hevs).
  split; [congruence|]. split; [assumption|].
  apply action_logs_no_start_line in Hadd.
  destruct r; subst evs; simpl; rewrite ?existsb_app, Hadd; reflexivity.
Qed.

Lemma ready_spin ticks : forall s trace s' r,
  ready s = true ->
  spin s ticks = (trace, s', r) ->
  ready s' = true /\
  start_time (dance_choreographer s') = start_time (dance_choreographer s) /\
  Forall (fun evs => existsb is_start_line evs = false) trace.
Proof.
  induction ticks as [|i ticks IH]; intros s trace s' r Hr Hspin;
    simpl in Hspin.
  - inversion Hspin; subst. auto.
  - destruct (timer_callback s i) as [[s1 evs] r1] eqn:Htick.
    destruct (ready_tick _ _ _ _ _ Hr Htick) as (Hr1 & Hst1 & Hevs).
    destruct r1.
    + inversion Hspin; subst. auto.
    + destruct (spin s1 ticks) as [[tr s2] e] eqn:Hrest.
      inversion Hspin; subst.
      destruct (IH _ _ _ _ Hr1 Hrest) as (Hr2 & Hst2 & Htr).
      split; [assumption|]. split; [congruence|]. now constructor.
Qed.

(** The tick that logs the start line makes the node ready. *)
Lemma start_line_tick s i s' evs r :
  timer_callback s i = (s', evs, r) ->
  existsb is_start_line evs = true ->
  ready s = false /\ ready s' = true /\
  start_time (dance_choreographer s') = Some (current_time i).
Proof.
  intros Htick Hevs.
  destruct (ready s) eqn:Hr.
  - destruct (ready_tick _ _ _ _ _ Hr Htick) as (_ & _ & H). congruence.
  - unfold timer_callback in Htick. rewrite Hr in Htick.
    destruct (subscribers_connected _ _).
    + pose proof (publish_commands_choreographer _ _ _ _ _ _ Htick)
        as [_ Hst].
      apply publish_commands_result in Htick as (Hr' & _).
      simpl in *. auto.
    + destruct (wait_printout_due s (current_time i));
        inversion Htick; subst; discriminate.
Qed.

Lemma no_second_start_line ticks : forall s trace s' r j k evj evk,
  spin s ticks = (trace, s', r) ->
  (j < k)%nat ->
  nth_error trace j = Some evj -> nth_error trace k = Some evk ->
  existsb is_start_line evj = true -> existsb is_start_line evk = true ->
  False.
Proof.
  induction ticks as [|i ticks IH];
    intros s trace s' r j k evj evk Hspin Hjk Hj Hk Hsj Hsk;
    simpl in Hspin.
  - inversion Hspin; subst. destruct j; discriminate.
  - destruct (timer_callback s i) as [[s1 evs] r1] eqn:Htick.
    destruct k as [|k]; [lia|].
    destruct r1.
    + inversion Hspin; subst. destruct k; discriminate.
    + destruct (spin s1 ticks) as [[tr s2] e] eqn:Hrest.
      inversion Hspin; subst. simpl in Hk.
      destruct j as [|j]; simpl in Hj.
      * injection Hj as <-.
        destruct (start_line_tick _ _ _ _ _ Htick Hsj) as (_ & Hr1 & _).
        destruct (ready_spin _ _ _ _ _ Hr1 Hrest) as (_ & _ & Hall).
        rewrite Forall_forall in Hall.
        apply nth_error_In in Hk. apply Hall in Hk. congruence.
      * eapply (IH s1 _ _ _ j k); eauto. lia.
Qed.

End Run.

(** X9. The dance starts once per run: at most one tick logs the start
    line, and from a ready node on the node stays ready, the start time of
    the performance never changes, and no start line is logged: the node
    itself never restarts the dance. *)
Theorem performance_starts_once :
  (forall s ticks trace s' r j k evj evk,
     spin s ticks = (trace, s', r) ->
     nth_error trace j = Some evj -> nth_error trace k = Some evk ->
     existsb is_start_line evj = true -> existsb is_start_line evk = true ->
     j = k)
  /\
  (forall s ticks trace s' r,
     ready s = true ->
     spin s ticks = (trace, s', r) ->
     ready s' = true /\
     start_time (dance_choreographer s')
     = start_time (dance_choreographer s) /\
     Forall (fun evs => existsb is_start_line evs = false) trace).
Proof.
  split.
  - intros s ticks trace s' r j k evj evk Hspin Hj Hk Hsj Hsk.
    destruct (Nat.lt_trichotomy j k) as [H|[H|H]]; auto; exfalso.
    + eapply (no_second_start_line ticks s trace s' r j k); eauto.
    + eapply (no_second_start_line ticks s trace s' r k j); eauto.
  - intros. eapply ready_spin; eauto.
Qed.

Lemma performance_starts_once_witness :
  ready example_started = true /\
  exists trace s',
    spin example_started [at_s 11; at_s 12] = (trace, s', None) /\
    ready s' = true /\
    start_time (dance_choreographer s') = Some 10000000000 /\
    Forall (fun evs => existsb is_start_line evs = false) trace.
Proof.
  split; [reflexivity|].
  eexists _, _. split; [reflexivity|].
  apply (proj2 performance_starts_once example_started [at_s 11; at_s 12]
           _ _ None eq_refl eq_refl).
Defined.

(** ** What a run publishes *)

Section LatchInvariant.

Variable script : Script.
Variable PT : Twist -> Prop.
Variable PL : LightringLeds -> Prop.

Hypothesis PT_move : forall off ax atheta,
  In (off, Move ax atheta) script -> PT (move_twist ax atheta).
Hypothesis PT_finished : PT Twist_new.
Hypothesis PL_lights : forall off led_colors,
  In (off, Lights led_colors) script ->
  PL (mkLightringLeds 0 led_colors true).
Hypothesis PL_finished : PL (mkLightringLeds 0 (repeat LedColor_new 6) false).
Hypothesis PL_stamp : forall l t, PL l -> PL (set_stamp l t).

Lemma due_prefix_from_script e c a :
  In a (due_prefix e (skipn c script)) -> exists off, In (off, a) script.
Proof.
  intros Ha. rewrite due_prefix_firstn in Ha.
  apply in_map_iff in Ha as ([off b] & <- & Hp). exists off. simpl.
  eapply skipn_In.
  rewrite <- (firstn_skipn (length (due_prefix e (skipn c script)))
                (skipn c script)).
  apply in_or_app. left. exact Hp.
Qed.

Lemma for_body_latches now f a f' r :
  for_body now f a = (f', r) ->
  (exists off, In (off, a) script) ->
  PT (last_twist (node f)) -> PL (last_lightring (node f)) ->
  PT (last_twist (node f')) /\ PL (last_lightring (node f')).
Proof.
  intros H [off Hin] HT HL.
  destruct a as [ax ath|cs|].
  - simpl in H. inversion H; subst; simpl. split; auto.
    apply (PT_move off). exact Hin.
  - destruct (Nat.eq_dec (length cs) 6) as [Hlen|Hlen].
    + rewrite (for_body_lights_six _ _ _ Hlen) in H.
      inversion H; subst; simpl. split; auto.
      apply (PL_lights off). exact Hin.
    + rewrite (for_body_lights_refused _ _ _ Hlen) in H.
      inversion H; subst; simpl. auto.
  - simpl in H. inversion H; subst; simpl. auto.
Qed.

Lemma for_actions_latches now acts : forall f f' r,
  for_actions now acts f = (f', r) ->
  (forall a, In a acts -> exists off, In (off, a) script) ->
  PT (last_twist (node f)) -> PL (last_lightring (node f)) ->
  PT (last_twist (node f')) /\ PL (last_lightring (node f')).
Proof.
  induction acts as [|a acts IH]; intros f f' r H Hin HT HL; simpl in H.
  - inversion H; subst. auto.
  - destruct (for_body now f a) as [g [e|]] eqn:Hb.
    + inversion H; subst.
      eapply for_body_latches; eauto. apply Hin. now left.
    + destruct (for_body_latches _ _ _ _ _ Hb) as [HT' HL']; auto.
      { apply Hin. now left. }
      eapply IH; eauto. intros b Hb'. apply Hin. now right.
Qed.

Lemma publish_commands_latches s now logged s' evs r :
  publish_commands s now logged = (s', evs, r) ->
  dance_sequence (dance_choreographer s) = script ->
  PT (last_twist s) -> PL (last_lightring s) ->
  PT (last_twist s') /\ PL (last_lightring s').
Proof.
  unfold publish_commands. intros H Hseq HT HL.
  destruct (get_next_actions (dance_choreographer s) now)
    as [[acts d']|e] eqn:Hget.
  - assert (Hacts : forall a, In a acts -> exists off, In (off, a) script).
    { destruct (start_time (dance_choreographer s)) as [st|] eqn:Hst.
      - rewrite (get_next_actions_started _ st) in Hget by assumption.
        injection Hget as <- _. rewrite Hseq.
        intros a. apply due_prefix_from_script.
      - unfold get_next_actions in Hget. rewrite Hst in Hget.
        discriminate. }
    destruct (for_actions now acts _) as [f r0] eqn:Hfor.
    pose proof Hfor as Hframe.
    apply for_actions_frame in Hframe as [Hal _]; [|split; reflexivity].
    apply for_actions_latches in Hfor as [HT' HL']; auto.
    destruct r0; injection H as <- _ _; simpl; auto.
    destruct (Hal eq_refl) as [_ Hlr].
    split; [assumption|]. apply PL_stamp. now rewrite Hlr.
  - injection H as <- _ _. auto.
Qed.

Lemma timer_callback_invariant s i s' evs r :
  latch_invariant script PT PL s ->
  timer_callback s i = (s', evs, r) ->
  latch_invariant script PT PL s'.
Proof.
  intros (Hseq & Hstart & HT & HL). unfold timer_callback, latch_invariant.
  destruct (ready s) eqn:Hr.
  - intros H.
    pose proof (publish_commands_choreographer _ _ _ _ _ _ H) as [Hs Hst].
    pose proof (publish_commands_latches _ _ _ _ _ _ H Hseq HT HL)
      as [HT' HL'].
    repeat split; auto; try congruence.
    intros _. rewrite Hst. auto.
  - destruct (subscribers_connected _ _).
    + intros H.
      pose proof (publish_commands_choreographer _ _ _ _ _ _ H) as [Hs Hst].
      pose proof (publish_commands_latches _ _ _ _ _ _ H Hseq HT HL)
        as [HT' HL'].
      simpl in Hs, Hst.
      repeat split; auto; congruence.
    + destruct (wait_printout_due s (current_time i));
        intros H; injection H as <- _ _; simpl;
        repeat split; auto; rewrite Hr; discriminate.
Qed.

(** The messages a tick publishes are the latches it leaves. *)
Lemma published_are_latches s i s' evs r :
  timer_callback s i = (s', evs, r) ->
  (forall tw, In (PublishVel tw) evs -> tw = last_twist s') /\
  (forall lr, In (PublishLights lr) evs -> lr = last_lightring s').
Proof.
  unfold timer_callback. intros H.
  assert (Hpub : forall logged s0 now,
            publish_commands s0 now logged = (s', evs, r) ->
            forallb is_log logged = true ->
            (forall tw, In (PublishVel tw) evs -> tw = last_twist s') /\
            (forall lr, In (PublishLights lr) evs -> lr = last_lightring s')).
  { intros logged s0 now Hp Hlogged.
    apply publish_commands_result in Hp as (_ & _ & added & Hadd & Hevs).
    apply is_action_log_is_log in Hadd.
    rewrite forallb_forall in Hadd, Hlogged.
    split; intros m Hin; destruct r; subst evs;
      rewrite ?in_app_iff in Hin; simpl in Hin;
      repeat match goal with
        | H : _ \/ _ |- _ => destruct H
        | H : False |- _ => destruct H
        | H : In _ logged |- _ => apply Hlogged in H; simpl in H; discriminate
        | H : In _ added |- _ => apply Hadd in H; simpl in H; discriminate
        | H : PublishVel _ = _ |- _ => inversion H; clear H
        | H : PublishLights _ = _ |- _ => inversion H; clear H
        end; reflexivity. }
  destruct (ready s).
  - eapply Hpub; eauto.
  - destruct (subscribers_connected _ _).
    + eapply Hpub; eauto.
    + destruct (wait_printout_due s (current_time i));
        injection H as _ <- _; split; intros m Hin; simpl in Hin;
        intuition discriminate.
Qed.

Lemma spin_invariant ticks : forall s trace s' r,
  latch_invariant script PT PL s ->
  spin s ticks = (trace, s', r) ->
  latch_invariant script PT PL s' /\
  forall evs, In evs trace ->
    (forall tw, In (PublishVel tw) evs -> PT tw) /\
    (forall lr, In (PublishLights lr) evs -> PL lr).
Proof.
  induction ticks as [|i ticks IH]; intros s trace s' r Hinv Hspin;
    simpl in Hspin.
  - inversion Hspin; subst. split; [assumption|]. intros evs [].
  - destruct (timer_callback s i) as [[s1 evs1] r1] eqn:Htick.
    pose proof (timer_callback_invariant _ _ _ _ _ Hinv Htick) as Hinv1.
    pose proof (published_are_latches _ _ _ _ _ Htick) as [Htw Hlr].
    assert (Hevs1 : (forall tw, In (PublishVel tw) evs1 -> PT tw) /\
                    (forall lr, In (PublishLights lr) evs1 -> PL lr)).
    { destruct Hinv1 as (_ & _ & HT & HL).
      split; intros m Hm; [rewrite (Htw m Hm) | rewrite (Hlr m Hm)]; auto. }
    destruct r1.
    + inversion Hspin; subst. split; [assumption|].
      intros evs [<-|[]]. exact Hevs1.
    + destruct (spin s1 ticks) as [[tr s2] e] eqn:Hrest.
      inversion Hspin; subst.
      destruct (IH _ _ _ _ Hinv1 Hrest) as [Hinv2 Htr].
      split; [assumption|]. intros evs [<-|Hin]; auto.
Qed.

End LatchInvariant.

Section Returns.

Lemma tick_returns script s i :
  dance_sequence (dance_choreographer s) = script ->
  (ready s = true -> start_time (dance_choreographer s) <> None) ->
  six_leds script = true ->
  exists s' evs, timer_callback s i = (s', evs, None).
Proof.
  intros Hseq Hstart Hne. unfold timer_callback.
  destruct (ready s) eqn:Hr.
  - destruct (start_time (dance_choreographer s)) as [st|] eqn:Hst;
      [|exfalso; now apply Hstart].
    apply (publish_commands_returns _ _ _ st); congruence.
  - destruct (subscribers_connected _ _).
    + apply (publish_commands_returns _ _ _ (current_time i));
        [reflexivity | simpl; congruence].
    + destruct (wait_printout_due s (current_time i)); eauto.
Qed.

Lemma spin_returns script ticks : forall s,
  latch_invariant script (fun _ => True) (fun _ => True) s ->
  six_leds script = true ->
  exists trace s',
    spin s ticks = (trace, s', None) /\ length trace = length ticks.
Proof.
  induction ticks as [|i ticks IH]; intros s Hinv Hne; simpl.
  - eauto.
  - destruct Hinv as (Hseq & Hstart & HT & HL).
    destruct (tick_returns script s i Hseq Hstart Hne) as (s1 & evs & Htick).
    rewrite Htick.
    assert (Hinv1 : latch_invariant script (fun _ => True) (fun _ => True) s1).
    { eapply (timer_callback_invariant script (fun _ => True)
                (fun _ => True)); eauto.
      repeat split; auto. }
    destruct (IH s1 Hinv1 Hne) as (trace & s' & Hspin & Hlen).
    rewrite Hspin. exists (evs :: trace), s'. simpl. auto.
Qed.

Lemma init_invariant script (PT : Twist -> Prop) (PL : LightringLeds -> Prop) :
  PT Twist_new ->
  PL (mkLightringLeds 0 (repeat LedColor_new 6) false) ->
  latch_invariant script PT PL (DanceCommandPublisher_init (fresh script)).
Proof.
  intros HT HL. repeat split; auto. simpl. discriminate.
Qed.

End Returns.

Section Refused.

Lemma for_actions_refused now acts : forall f,
  forallb six_colours acts = false ->
  exists f', for_actions now acts f = (f', Some AssertionError).
Proof.
  induction acts as [|a acts IH]; intros f H; simpl in H; [discriminate|].
  rewrite for_actions_cons.
  destruct (six_colours a) eqn:Ha.
  - destruct (for_body_log now f a Ha) as (g & -> & _). apply IH, H.
  - destruct a as [ax ath|cs|]; try discriminate.
    simpl in Ha. apply Nat.eqb_neq in Ha.
    rewrite (for_body_lights_refused _ _ _ Ha). eauto.
Qed.

Lemma publish_commands_refused s now logged acts d' :
  get_next_actions (dance_choreographer s) now = Ok (acts, d') ->
  forallb six_colours acts = false ->
  exists s' evs,
    publish_commands s now logged = (s', evs, Some AssertionError).
Proof.
  intros Hget Hacts. unfold publish_commands. rewrite Hget.
  match goal with |- context [for_actions ?n ?l ?f] =>
    destruct (for_actions_refused n l f Hacts) as (f' & ->) end.
  eauto.
Qed.

Lemma forallb_map_snd (l : Script) :
  forallb six_colours (map snd l) = six_leds l.
Proof.
  unfold six_leds. induction l as [|p l IH]; simpl; auto. now rewrite IH.
Qed.

(** On a script with a [Lights] that does not have six colours, the run of
    a tick that connects at time zero and a tick late enough for every
    offset raises. *)
Lemma some_run_is_refused script :
  six_leds script = false ->
  exists ticks trace s',
    spin (DanceCommandPublisher_init (fresh script)) ticks
    = (trace, s', Some AssertionError).
Proof.
  intros Hsix. destruct (all_due_eventually script) as [D HD].
  set (T := Z.max D 0).
  exists [mkTick 0 1 0; mkTick T 1 0].
  set (s1 := set_dance_choreographer
               (set_ready (DanceCommandPublisher_init (fresh script)) true)
               (start_dance (fresh script) 0)).
  assert (Hget1 : get_next_actions (dance_choreographer s1) 0
                  = Ok (due_prefix (seconds 0) script,
                        mkDanceChoreographer script
                          (length (due_prefix (seconds 0) script)) (Some 0)))
    by (simpl; rewrite (get_next_actions_started _ 0) by reflexivity;
        reflexivity).
  change (spin (DanceCommandPublisher_init (fresh script))
            [mkTick 0 1 0; mkTick T 1 0])
    with (match publish_commands s1 0 [LogStart (seconds 0)] with
          | (s', evs, Some e) => ([evs], s', Some e)
          | (s', evs, None) =>
              let '(trace, s'', e) := spin s' [mkTick T 1 0] in
              (evs :: trace, s'', e)
          end).
  destruct (forallb six_colours (due_prefix (seconds 0) script)) eqn:H1.
  - destruct (publish_commands_six_colours s1 0 [LogStart (seconds 0)] _ _
                Hget1 H1)
      as (s2 & -> & _ & Hdc & Hr & _).
    assert (Hget2 : get_next_actions (dance_choreographer s2) T
                    = Ok (map snd (skipn (length (due_prefix (seconds 0)
                                                    script)) script),
                          mkDanceChoreographer script
                            (next_index script (seconds (T - 0))
                               (length (due_prefix (seconds 0) script)))
                            (Some 0))).
    { rewrite Hdc, (get_next_actions_started _ 0) by reflexivity. simpl.
      rewrite due_prefix_all; [reflexivity|].
      assert (HT : D <= T - 0) by lia.
      specialize (HD _ HT). rewrite Forall_forall in *.
      intros p Hp. apply HD. eapply skipn_In; eauto. }
    assert (H2 : forallb six_colours
                   (map snd (skipn (length (due_prefix (seconds 0) script))
                               script)) = false).
    { rewrite <- forallb_map_snd in Hsix.
      rewrite <- (firstn_skipn (length (due_prefix (seconds 0) script))
                    script) in Hsix at 1.
      rewrite map_app, forallb_app, <- due_prefix_firstn, H1 in Hsix.
      exact Hsix. }
    destruct (publish_commands_refused s2 T [] _ _ Hget2 H2)
      as (s3 & evs & Hpub).
    simpl. unfold timer_callback. simpl in Hr. rewrite Hr. simpl.
    rewrite Hpub. eauto.
  - destruct (publish_commands_refused s1 0 [LogStart (seconds 0)] _ _
                Hget1 H1)
      as (s2 & evs & ->).
    eauto.
Qed.

End Refused.

(** X10. A node constructed on a script never raises exactly when every
    [Lights] of the script has six colours: then every tick of every run
    returns, whatever the times and the subscriber counts; otherwise some
    run ends with [AssertionError]. *)
Theorem run_returns_iff_six_leds (script : Script) :
  (six_leds script = true ->
   forall ticks, exists trace s',
     spin (DanceCommandPublisher_init (fresh script)) ticks
     = (trace, s', None) /\
     length trace = length ticks)
  /\
  (six_leds script = false ->
   exists ticks trace s',
     spin (DanceCommandPublisher_init (fresh script)) ticks
     = (trace, s', Some AssertionError)).
Proof.
  split.
  - intros Hsix ticks. apply (spin_returns script); [|assumption].
    apply init_invariant; exact I.
  - apply some_run_is_refused.
Qed.

Lemma run_returns_iff_six_leds_witness :
  (six_leds example_script = true /\
   exists trace s',
     spin (DanceCommandPublisher_init (fresh example_script))
       [waiting_at 1; at_s 10; at_s 9; at_s 12]
     = (trace, s', None) /\
     length trace = length [waiting_at 1; at_s 10; at_s 9; at_s 12])
  /\
  (six_leds malformed_script = false /\
   exists ticks trace s',
     spin (DanceCommandPublisher_init (fresh malformed_script)) ticks
     = (trace, s', Some AssertionError)).
Proof.
  split; (split; [reflexivity|]).
  - apply (proj1 (run_returns_iff_six_leds example_script) eq_refl).
  - apply (proj2 (run_returns_iff_six_leds malformed_script) eq_refl).
Defined.

(** X11. When every [Lights] of the script has six colours, every light
    command a run publishes has six leds, from the first tick on. *)
Theorem published_lightring_has_six_leds (script : Script)
    (ticks : list tick_input) :
  six_leds script = true ->
  exists trace s',
    spin (DanceCommandPublisher_init (fresh script)) ticks
    = (trace, s', None) /\
    forall evs lr,
      In evs trace -> In (PublishLights lr) evs ->
      length (leds lr) = 6%nat.
Proof.
  intros Hsix.
  destruct (spin_returns script ticks
              (DanceCommandPublisher_init (fresh script)))
    as (trace & s' & Hspin & _).
  - apply init_invariant; exact I.
  - assumption.
  - exists trace, s'. split; [assumption|].
    intros evs lr Hevs Hlr.
    destruct (spin_invariant script (fun _ => True)
                (fun l => length (leds l) = 6%nat)) with
      (ticks := ticks) (s := DanceCommandPublisher_init (fresh script))
      (trace := trace) (s' := s') (r := @None exn) as [_ Hall]; auto.
    + intros off cs Hin. simpl.
      unfold six_leds in Hsix. rewrite forallb_forall in Hsix.
      apply Hsix in Hin. simpl in Hin. now apply Nat.eqb_eq.
    + apply init_invariant; [exact I | reflexivity].
    + apply (Hall evs Hevs). exact Hlr.
Qed.

Lemma published_lightring_has_six_leds_witness :
  six_leds example_script = true /\
  exists trace s',
    spin (DanceCommandPublisher_init (fresh example_script))
      [at_s 10; at_s 11; at_s 12]
    = (trace, s', None) /\
    forall evs lr,
      In evs trace -> In (PublishLights lr) evs ->
      length (leds lr) = 6%nat.
Proof.
  split; [reflexivity|].
  apply (published_lightring_has_six_leds example_script
           [at_s 10; at_s 11; at_s 12] eq_refl).
Defined.

(** X12. Every velocity command a run publishes, on any script, has only a
    forward speed and a yaw rate: the other four components are zero. *)
Theorem published_twist_is_planar (script : Script) (ticks : list tick_input)
    (trace : list (list event)) (s' : DanceCommandPublisher)
    (r : option exn) (evs : list event) (tw : Twist) :
  spin (DanceCommandPublisher_init (fresh script)) ticks = (trace, s', r) ->
  In evs trace -> In (PublishVel tw) evs ->
  planar tw.
Proof.
  intros Hspin Hevs Htw.
  destruct (spin_invariant script planar (fun _ => True)) with
    (ticks := ticks) (s := DanceCommandPublisher_init (fresh script))
    (trace := trace) (s' := s') (r := r) as [_ Hall]; auto.
  - intros off ax ath _. repeat split.
  - repeat split.
  - apply init_invariant; [repeat split | exact I].
  - apply (Hall evs Hevs). exact Htw.
Qed.

Lemma published_twist_is_planar_witness :
  (spin (DanceCommandPublisher_init (fresh late_script)) [at_s 10; at_s 11]
   = (late_trace, example_moving, None) /\
   In late_second_tick late_trace /\
   In (PublishVel (move_twist (3 # 10) (1 # 2))) late_second_tick) /\
  planar (move_twist (3 # 10) (1 # 2)).
Proof.
  assert (H1 : spin (DanceCommandPublisher_init (fresh late_script))
                 [at_s 10; at_s 11]
               = (late_trace, example_moving, None))
    by reflexivity.
  assert (H2 : In late_second_tick late_trace)
    by (right; left; reflexivity).
  assert (H3 : In (PublishVel (move_twist (3 # 10) (1 # 2)))
                 late_second_tick)
    by (right; left; reflexivity).
  split; [repeat split; assumption|].
  apply (published_twist_is_planar late_script [at_s 10; at_s 11] _ _ _ _ _
           H1 H2 H3).
Defined.

(** X13. Once the cursor has reached the end of the script, nothing fires
    any more: whatever the times of the later ticks, each republishes the
    same velocity command and the same light command (stamped anew), and
    the run never stops by itself. *)
Theorem exhausted_script_republishes_forever (s : DanceCommandPublisher)
    (st : Z) (ticks : list tick_input) :
  ready s = true ->
  start_time (dance_choreographer s) = Some st ->
  (length (dance_sequence (dance_choreographer s))
   <= action_index (dance_choreographer s))%nat ->
  exists s',
    spin s ticks
    = (map (fun i => [PublishVel (last_twist s);
                      PublishLights (set_stamp (last_lightring s)
                                       (current_time i))])
         ticks, s', None).
Proof.
  intros Hr Hst Hend.
  destruct (idle_spin ticks s Hr) as (s' & Hspin & _); eauto.
  apply Forall_forall. intros i _.
  destruct (dance_choreographer s) as [script c st0]; simpl in *. subst st0.
  apply blocked_idle. now rewrite skipn_all2.
Qed.

Lemma exhausted_script_republishes_forever_witness :
  (ready example_finished = true /\
   start_time (dance_choreographer example_finished) = Some 10000000000 /\
   (length (dance_sequence (dance_choreographer example_finished))
    <= action_index (dance_choreographer example_finished))%nat) /\
  exists s',
    spin example_finished [at_s 13; at_s 5; at_s 99]
    = (map (fun i => [PublishVel (last_twist example_finished);
                      PublishLights (set_stamp (last_lightring example_finished)
                                       (current_time i))])
         [at_s 13; at_s 5; at_s 99], s', None).
Proof.
  assert (H : (length (dance_sequence (dance_choreographer example_finished))
               <= action_index (dance_choreographer example_finished))%nat)
    by (simpl; lia).
  split; [repeat split; exact H|].
  apply (exhausted_script_republishes_forever example_finished 10000000000
           [at_s 13; at_s 5; at_s 99] eq_refl eq_refl H).
Defined.

Lemma wait_printout_due_ns s now :
  wait_printout_due s now
  = waiting_line_due (last_wait_subscriber_printout s) now.
Proof.
  unfold wait_printout_due, waiting_line_due.
  destruct (last_wait_subscriber_printout s) as [l|]; auto.
  destruct (Z.ltb_spec (l + 5000000000) now) as [Hlt|Hge];
    destruct (Qle_bool (seconds (now - l)) 5) eqn:Hq; auto; exfalso.
  - apply Qle_bool_iff in Hq. unfold seconds, Qle in Hq; simpl in Hq. lia.
  - assert (Qle_bool (seconds (now - l)) 5 = true)
      by (apply Qle_bool_iff; unfold seconds, Qle; simpl; lia).
    congruence.
Qed.

(** X14. A tick of a node that is not ready and sees no velocity subscriber
    logs the waiting line exactly when none was logged before or the last
    one is more than 5 000 000 000 ns old (exactly five seconds is not
    enough, a clock that went backward neither); it then records the time
    of the tick, and otherwise changes nothing. *)
Theorem waiting_line_exactly_when_due (s : DanceCommandPublisher)
    (i : tick_input) :
  ready s = false ->
  vel_subscription_count i = 0%nat ->
  timer_callback s i
  = if waiting_line_due (last_wait_subscriber_printout s) (current_time i)
    then (set_last_wait_subscriber_printout s (Some (current_time i)),
          [LogWaiting], None)
    else (s, [], None).
Proof.
  intros Hr Hv. unfold timer_callback, subscribers_connected.
  rewrite Hr, Hv, wait_printout_due_ns. reflexivity.
Qed.

Lemma waiting_line_exactly_when_due_witness :
  (ready (set_last_wait_subscriber_printout example_node (Some 1000000000))
   = false /\
   vel_subscription_count (waiting_at 6) = 0%nat) /\
  timer_callback
    (set_last_wait_subscriber_printout example_node (Some 1000000000))
    (waiting_at 6)
  = (set_last_wait_subscriber_printout example_node (Some 1000000000),
     [], None).
Proof.
  split; [split; reflexivity|].
  apply (waiting_line_exactly_when_due
           (set_last_wait_subscriber_printout example_node (Some 1000000000))
           (waiting_at 6) eq_refl eq_refl).
Defined.

Lemma timer_callback_lights_count s n i :
  timer_callback s (with_lights_count n i) = timer_callback s i.
Proof.
  unfold timer_callback, subscribers_connected, with_lights_count. simpl.
  reflexivity.
Qed.

(** X15. The count of light-ring subscribers never matters: the gate opens
    exactly when the velocity topic has a subscriber, and a run with any
    other light-ring counts is the same run. *)
Theorem lights_subscription_count_is_ignored :
  (forall vel_count lights_count,
     subscribers_connected vel_count lights_count = (0 <? vel_count)%nat) /\
  (forall n ticks s,
     spin s (map (with_lights_count n) ticks) = spin s ticks).
Proof.
  split.
  - intros v l. unfold subscribers_connected. simpl. apply andb_true_r.
  - intros n ticks. induction ticks as [|i ticks IH]; intros s; simpl; auto.
    rewrite timer_callback_lights_count.
    destruct (timer_callback s i) as [[s1 evs] [e|]]; auto.
    now rewrite IH.
Qed.

(** X16. The tick on which a waiting node first sees a velocity subscriber
    starts the dance at the time of that tick, from the first entry of the
    script whatever the cursor was, and already fires the entries of
    offset at most zero; when every [Lights] among them has six colours it
    logs the start line, then one line per fired action, and publishes
    both commands. *)
Theorem start_tick_starts_and_fires (s : DanceCommandPublisher)
    (i : tick_input) :
  ready s = false ->
  (0 < vel_subscription_count i)%nat ->
  forallb six_colours
    (due_prefix (seconds 0) (dance_sequence (dance_choreographer s))) = true ->
  exists s',
    timer_callback s i
    = (s', [LogStart (seconds (current_time i))]
             ++ flat_map (log_lines (current_time i))
                  (due_prefix (seconds 0)
                     (dance_sequence (dance_choreographer s)))
             ++ [PublishVel (last_twist s');
                 PublishLights (last_lightring s')], None) /\
    ready s' = true /\
    dance_choreographer s'
    = mkDanceChoreographer (dance_sequence (dance_choreographer s))
        (length (due_prefix (seconds 0)
                   (dance_sequence (dance_choreographer s))))
        (Some (current_time i)).
Proof.
  intros Hr Hv Hlog. unfold timer_callback, subscribers_connected.
  rewrite Hr. apply Nat.ltb_lt in Hv. rewrite Hv. simpl.
  match goal with |- context [publish_commands ?s1 ?n ?l] =>
    destruct (publish_commands_six_colours s1 n l
                (due_prefix (seconds 0)
                   (dance_sequence (dance_choreographer s)))
                (mkDanceChoreographer (dance_sequence (dance_choreographer s))
                   (length (due_prefix (seconds 0)
                              (dance_sequence (dance_choreographer s))))
                   (Some (current_time i))))
      as (s' & Hpub & _ & Hdc & Hr' & _)
  end.
  - simpl. rewrite (get_next_actions_started _ (current_time i))
      by reflexivity.
    simpl. unfold next_index. rewrite Z.sub_diag. reflexivity.
  - assumption.
  - exists s'. rewrite Hpub. simpl in Hr'. auto.
Qed.

Lemma start_tick_starts_and_fires_witness :
  (ready example_node = false /\
   (0 < vel_subscription_count (at_s 10))%nat /\
   forallb six_colours
     (due_prefix (seconds 0)
        (dance_sequence (dance_choreographer example_node))) = true) /\
  exists s',
    timer_callback example_node (at_s 10)
    = (s', [LogStart (seconds (current_time (at_s 10)))]
             ++ flat_map (log_lines (current_time (at_s 10)))
                  (due_prefix (seconds 0)
                     (dance_sequence (dance_choreographer example_node)))
             ++ [PublishVel (last_twist s');
                 PublishLights (last_lightring s')], None) /\
    ready s' = true /\
    dance_choreographer s'
    = mkDanceChoreographer
        (dance_sequence (dance_choreographer example_node))
        (length (due_prefix (seconds 0)
                   (dance_sequence (dance_choreographer example_node))))
        (Some (current_time (at_s 10))).
Proof.
  assert (Hv : (0 < vel_subscription_count (at_s 10))%nat) by (simpl; lia).
  split; [repeat split; exact Hv|].
  apply (start_tick_starts_and_fires example_node (at_s 10) eq_refl Hv
           eq_refl).
Defined.
